(** * animations.js: intro and scroll-reveal motion system

    A shallow embedding of [public/scripts/animations.js].  The script is
    an IIFE that registers two listeners and otherwise only reacts to host
    events, so the page is modelled as a record of the state the script
    can touch (inline styles, pending timers, pending animation frames,
    the intersection observer) together with a step function, one case
    per host event.  Closures handed to [setTimeout] and
    [requestAnimationFrame] are defunctionalised into [Callback]. *)

From Stdlib Require Import QArith.
From stdpp Require Import gmap strings list sorting pretty.

Close Scope Q_scope.
Local Open Scope string_scope.
#[local] Set Warnings "-clear-no-such-hyp".

(** ** JavaScript numbers

    Every finite double is a rational, so finite values carry a [Q].  The
    operations the script performs on numbers (an index times 220, the
    difference of two sort keys) are exact on the values involved, or at
    least sign-exact, so no rounding is modelled. *)

Inductive number :=
| NaN
| NegInfinity
| Finite (q : Q)
| Infinity.

Definition num_of_nat (n : nat) : number := Finite (inject_Z (Z.of_nat n)).
Definition num_of_Z (z : Z) : number := Finite (inject_Z z).

(** [x - y] *)
Definition num_sub (x y : number) : number :=
  match x, y with
  | NaN, _ | _, NaN => NaN
  | Infinity, Infinity | NegInfinity, NegInfinity => NaN
  | Infinity, _ | _, NegInfinity => Infinity
  | NegInfinity, _ | _, Infinity => NegInfinity
  | Finite a, Finite b => Finite (a - b)
  end.

(** [x + y] *)
Definition num_add (x y : number) : number :=
  match x, y with
  | NaN, _ | _, NaN => NaN
  | Infinity, NegInfinity | NegInfinity, Infinity => NaN
  | Infinity, _ | _, Infinity => Infinity
  | NegInfinity, _ | _, NegInfinity => NegInfinity
  | Finite a, Finite b => Finite (a + b)
  end.

Definition Qsign (q : Q) : comparison := Qcompare q 0.

(** [x * y] *)
Definition num_mul (x y : number) : number :=
  let inf (s : comparison) (pos : bool) :=
    match s with
    | Eq => NaN
    | Gt => if pos then Infinity else NegInfinity
    | Lt => if pos then NegInfinity else Infinity
    end in
  match x, y with
  | NaN, _ | _, NaN => NaN
  | Finite a, Finite b => Finite (a * b)
  | Infinity, Finite b => inf (Qsign b) true
  | NegInfinity, Finite b => inf (Qsign b) false
  | Finite a, Infinity => inf (Qsign a) true
  | Finite a, NegInfinity => inf (Qsign a) false
  | Infinity, Infinity | NegInfinity, NegInfinity => Infinity
  | Infinity, NegInfinity | NegInfinity, Infinity => NegInfinity
  end.

(** [x > 0], false on [NaN]. *)
Definition num_pos (x : number) : bool :=
  match x with
  | Infinity => true
  | Finite q => match Qcompare 0 q with Lt => true | _ => false end
  | NaN | NegInfinity => false
  end.

(** [x < y], false when either side is [NaN]. *)
Definition num_ltb (x y : number) : bool :=
  match x, y with
  | NaN, _ | _, NaN => false
  | _, NegInfinity | Infinity, _ => false
  | NegInfinity, _ | _, Infinity => true
  | Finite a, Finite b => match Qcompare a b with Lt => true | _ => false end
  end.

(** Numeric equality [x == y] on numbers, false on [NaN]. *)
Definition num_eqb (x y : number) : bool :=
  match x, y with
  | NegInfinity, NegInfinity | Infinity, Infinity => true
  | Finite a, Finite b => Qeq_bool a b
  | _, _ => false
  end.

Definition is_NaN (x : number) : bool :=
  match x with NaN => true | _ => false end.

(** [x <= y], false when either side is [NaN]. *)
Definition num_leb (x y : number) : bool :=
  negb (is_NaN x) && negb (is_NaN y) && negb (num_ltb y x).

(** [Math.max(x, y)] and [Math.min(x, y)]: [NaN] when an argument is
    [NaN].  (Signed zeros are not distinguished.) *)
Definition Math_max (x y : number) : number :=
  if is_NaN x || is_NaN y then NaN
  else if num_ltb x y then y else x.

Definition Math_min (x y : number) : number :=
  if is_NaN x || is_NaN y then NaN
  else if num_ltb y x then y else x.

(** [clamp(n, min, max)], line 27. *)
Definition clamp (n min max : number) : number :=
  Math_min (Math_max n min) max.

(** ** Host conversions

    [Number(s)] on a string and the string conversion of a number inside a
    template literal are ECMAScript built-ins, not code of the script.
    The development is parametric in them. *)

Class JSHost := {
  StringToNumber : string → number;
  NumberToString : number → string
}.

(** ** Strings *)

Definition lower_ascii (c : Ascii.ascii) : Ascii.ascii :=
  let n := Ascii.nat_of_ascii c in
  if (65 <=? n)%nat && (n <=? 90)%nat then Ascii.ascii_of_nat (n + 32) else c.

(** [s.toLowerCase()] on the code units of the ASCII range; the five
    direction keywords are ASCII and no other code unit lower-cases to one
    of their letters. *)
Fixpoint toLowerCase (s : string) : string :=
  match s with
  | EmptyString => EmptyString
  | String c s' => String (lower_ascii c) (toLowerCase s')
  end.

(** [a || d] for a nullable string [a]: [null], [undefined] and [''] are
    falsy. *)
Definition str_or (a : option string) (d : string) : string :=
  match a with
  | Some s => if decide (s = "") then d else s
  | None => d
  end.

(** ** Elements and inline style *)

Record Style := mkStyle {
  opacity : string;
  willChange : string;
  transform : string;
  transition : string
}.

(** [attributes] are the content attributes the script reads; the inline
    style, which a document also exposes as the [style] content
    attribute, is kept in [style] only. *)
Record Element := mkElement {
  attributes : gmap string string;
  style : Style
}.

(** A node is identified by its position in document order. *)
Abbreviation node := nat (only parsing).

Definition getAttribute (e : Element) (name : string) : option string :=
  attributes e !! name.

Definition set_opacity (v : string) (s : Style) : Style :=
  mkStyle v (willChange s) (transform s) (transition s).
Definition set_willChange (v : string) (s : Style) : Style :=
  mkStyle (opacity s) v (transform s) (transition s).
Definition set_transform (v : string) (s : Style) : Style :=
  mkStyle (opacity s) (willChange s) v (transition s).
Definition set_transition (v : string) (s : Style) : Style :=
  mkStyle (opacity s) (willChange s) (transform s) v.

Definition with_style (f : Style → Style) (e : Element) : Element :=
  mkElement (attributes e) (f (style e)).

(** ** Deferred callbacks *)

Inductive Callback :=
| InitFrame
    (* rAF callback of the DOMContentLoaded listener *)
| IntroTimeout (el : node) (delay : number)
    (* the 20ms timeout of runIntro *)
| AnimateInFrame (el : node) (delay duration : number) (easing : string)
    (* rAF callback of animateIn *)
| ClearTimeout (el : node).
    (* the 1100ms timeout of clearTransition *)

Record IntersectionObserver := mkObserver {
  rootMargin : string;
  threshold : number;
  targets : gset node
}.

Record Page := mkPage {
  prefersReduced : bool;
  document : list Element;
  timeouts : list (Callback * nat);
  animationFrames : list Callback;
  observer : option IntersectionObserver;
  onDOMContentLoaded : bool;   (* listener registered *)
  onMotionChange : bool;       (* listener registered *)
  domContentLoaded : bool      (* the event has been dispatched *)
}.

Record IntersectionObserverEntry := mkEntry {
  target : node;
  isIntersecting : bool
}.

(** Field updates of [Page]. *)
Definition setDocument (d : list Element) (p : Page) : Page :=
  mkPage (prefersReduced p) d (timeouts p) (animationFrames p) (observer p)
         (onDOMContentLoaded p) (onMotionChange p) (domContentLoaded p).
Definition setTimeouts (t : list (Callback * nat)) (p : Page) : Page :=
  mkPage (prefersReduced p) (document p) t (animationFrames p) (observer p)
         (onDOMContentLoaded p) (onMotionChange p) (domContentLoaded p).
Definition setAnimationFrames (f : list Callback) (p : Page) : Page :=
  mkPage (prefersReduced p) (document p) (timeouts p) f (observer p)
         (onDOMContentLoaded p) (onMotionChange p) (domContentLoaded p).
Definition setObserver (o : option IntersectionObserver) (p : Page) : Page :=
  mkPage (prefersReduced p) (document p) (timeouts p) (animationFrames p) o
         (onDOMContentLoaded p) (onMotionChange p) (domContentLoaded p).
Definition setOnMotionChange (b : bool) (p : Page) : Page :=
  mkPage (prefersReduced p) (document p) (timeouts p) (animationFrames p)
         (observer p) (onDOMContentLoaded p) b (domContentLoaded p).
Definition setDomContentLoaded (b : bool) (p : Page) : Page :=
  mkPage (prefersReduced p) (document p) (timeouts p) (animationFrames p)
         (observer p) (onDOMContentLoaded p) (onMotionChange p) b.

(** ** Host operations on the page *)

(** [el.getAttribute(name)], [None] for [null]. *)
Definition nodeAttribute (p : Page) (el : node) (name : string) : option string :=
  document p !! el ≫= λ e, getAttribute e name.

(** Assignments to [el.style.*]: the element is mutated in place.  The
    assigned string is kept as written; a document keeps it only when it
    is valid CSS, which every literal of the script is and a transition
    built from a delay that is not a number is not. *)
Definition updateStyle (el : node) (f : Style → Style) (p : Page) : Page :=
  setDocument (alter (with_style f) el (document p)) p.

Definition setTimeout (cb : Callback) (ms : nat) (p : Page) : Page :=
  setTimeouts (timeouts p ++ [(cb, ms)]) p.

Definition requestAnimationFrame (cb : Callback) (p : Page) : Page :=
  setAnimationFrames (animationFrames p ++ [cb]) p.

Definition hasAttribute (e : Element) (name : string) : bool :=
  bool_decide (is_Some (attributes e !! name)).

(** A selector list [[a],[b],...] is given by its attribute names. *)
Definition matchesSelector (names : list string) (e : Element) : bool :=
  existsb (hasAttribute e) names.

Fixpoint selectFrom (names : list string) (i : node) (doc : list Element)
  : list node :=
  match doc with
  | [] => []
  | e :: doc' =>
      if matchesSelector names e
      then i :: selectFrom names (S i) doc'
      else selectFrom names (S i) doc'
  end.

(** [document.querySelectorAll(...)], in document order. *)
Definition querySelectorAll (names : list string) (p : Page) : list node :=
  selectFrom names 0 (document p).

(** [xs.forEach((x, i) => body)] with the page threaded through. *)
Fixpoint forEachFrom {A} (body : A → nat → Page → Page) (i : nat)
  (xs : list A) (p : Page) : Page :=
  match xs with
  | [] => p
  | x :: xs' => forEachFrom body (S i) xs' (body x i p)
  end.

Definition forEach {A} (body : A → nat → Page → Page) (xs : list A)
  (p : Page) : Page :=
  forEachFrom body 0 xs p.

(** [Array.prototype.sort(comparefn)]: a stable sort; an element moves
    behind a later one only when [comparefn] is positive on the pair, and
    a [NaN] result counts as [+0].  A comparator that returns [NaN] on
    some pairs only is not consistent and engines then differ in the
    order they produce; statements about positions in the sorted list
    assume numeric keys, for which the sorted arrangement is unique
    ([sorted_perm_unique]). *)
Fixpoint sortInsert (comparefn : node → node → number) (x : node)
  (l : list node) : list node :=
  match l with
  | [] => [x]
  | y :: l' =>
      if num_pos (comparefn x y)
      then y :: sortInsert comparefn x l'
      else x :: l
  end.

Definition Array_sort (comparefn : node → node → number) (l : list node)
  : list node :=
  foldr (sortInsert comparefn) [] l.

Definition observe (el : node) (p : Page) : Page :=
  match observer p with
  | Some o =>
      setObserver (Some (mkObserver (rootMargin o) (threshold o)
                                    ({[el]} ∪ targets o))) p
  | None => p
  end.

Definition unobserve (el : node) (p : Page) : Page :=
  match observer p with
  | Some o =>
      setObserver (Some (mkObserver (rootMargin o) (threshold o)
                                    (targets o ∖ {[el]}))) p
  | None => p
  end.

Definition observed (p : Page) : gset node :=
  match observer p with
  | Some o => targets o
  | None => ∅
  end.

(** ** The script *)

Section Script.
Context `{JSHost}.

(** [Number(a || d)] for a nullable string [a] and a number [d]. *)
Definition Number_or (a : option string) (d : number) : number :=
  match a with
  | Some s => if decide (s = "") then d else StringToNumber s
  | None => d
  end.

(** [translateFrom(from, px)], lines 35-44.  [from] is [None] for
    [null] or [undefined]. *)
Definition translateFrom (from : option string) (px : number) : string :=
  let d := toLowerCase (str_or from "up") in
  if decide (d = "down") then "translateY(-" +:+ NumberToString px +:+ "px)"
  else if decide (d = "left") then "translateX(" +:+ NumberToString px +:+ "px)"
  else if decide (d = "right") then "translateX(-" +:+ NumberToString px +:+ "px)"
  else if decide (d = "fade") then "translateZ(0)"
  else "translateY(" +:+ NumberToString px +:+ "px)".

(** [setInitialState(el, from = 'up')], lines 29-33.  [from] is [None]
    when the argument is omitted. *)
Definition setInitialState (el : node) (from : option string) (p : Page)
  : Page :=
  let from := default "up" from in
  let p := updateStyle el (set_opacity "0") p in
  let p := updateStyle el (set_willChange "opacity, transform") p in
  updateStyle el (set_transform (translateFrom (Some from) (num_of_Z 10))) p.

Definition defaultEasing : string := "cubic-bezier(0.19, 1, 0.22, 1)".

(** [animateIn(el, { delay, duration, easing })], lines 46-53; an absent
    field of the options object takes its default.  The style writes
    happen in the frame callback, [animateInFrame]. *)
Definition animateIn (el : node) (delay duration : option number)
  (easing : option string) (p : Page) : Page :=
  let delay := default (num_of_Z 0) delay in
  let duration := default (num_of_Z 800) duration in
  let easing := default defaultEasing easing in
  requestAnimationFrame (AnimateInFrame el delay duration easing) p.

Definition transitionValue (delay duration : number) (easing : string)
  : string :=
  "opacity " +:+ NumberToString duration +:+ "ms " +:+ easing +:+ " "
    +:+ NumberToString delay +:+ "ms, transform "
    +:+ NumberToString duration +:+ "ms " +:+ easing +:+ " "
    +:+ NumberToString delay +:+ "ms".

Definition animateInFrame (el : node) (delay duration : number)
  (easing : string) (p : Page) : Page :=
  let p := updateStyle el (set_transition (transitionValue delay duration easing)) p in
  let p := updateStyle el (set_opacity "1") p in
  updateStyle el (set_transform "none") p.

(** [clearTransition(el)], lines 55-63, and the body of its timeout. *)
Definition clearWindow : nat := 1100.

Definition clearTransition (el : node) (p : Page) : Page :=
  setTimeout (ClearTimeout el) clearWindow p.

Definition clearTimeoutBody (el : node) (p : Page) : Page :=
  let p := updateStyle el (set_willChange "") p in
  let p := updateStyle el (set_transition "") p in
  let p := updateStyle el (set_transform "") p in
  updateStyle el (set_opacity "") p.

(** [showImmediately(nodes)], lines 67-74. *)
Definition showImmediately (nodes : list node) (p : Page) : Page :=
  forEach (λ el _ p,
    let p := updateStyle el (set_opacity "1") p in
    let p := updateStyle el (set_transform "none") p in
    let p := updateStyle el (set_transition "") p in
    updateStyle el (set_willChange "") p) nodes p.

Definition baseDuration : number := num_of_Z 900.
Definition baseStagger : number := num_of_Z 220.

(** The comparator of [nodes.sort], lines 88-92. *)
Definition introCompare (p : Page) (a b : node) : number :=
  let ao := Number_or (nodeAttribute p a "data-intro-order") (num_of_Z 0) in
  let bo := Number_or (nodeAttribute p b "data-intro-order") (num_of_Z 0) in
  num_sub ao bo.

(** [delayAttr !== null ? Number(delayAttr) : i * baseStagger], line 100. *)
Definition introDelay (p : Page) (el : node) (i : nat) : number :=
  match nodeAttribute p el "data-intro-delay" with
  | Some delayAttr => StringToNumber delayAttr
  | None => num_mul (num_of_nat i) baseStagger
  end.

(** The body of [nodes.forEach((el, i) => ...)], lines 97-109. *)
Definition introBody (el : node) (i : nat) (p : Page) : Page :=
  let from := str_or (nodeAttribute p el "data-intro-from") "up" in
  let delay := introDelay p el i in
  let p := setInitialState el (Some from) p in
  setTimeout (IntroTimeout el delay) 20 p.

(** [runIntro()], lines 78-110. *)
Definition runIntro (p : Page) : Page :=
  let nodes := querySelectorAll ["data-intro"] p in
  if decide (length nodes = 0) then p
  else if prefersReduced p then showImmediately nodes p
  else
    let nodes := Array_sort (introCompare p) nodes in
    forEach introBody nodes p.

(** The 20ms timeout of [runIntro], lines 105-108. *)
Definition introTimeoutBody (el : node) (delay : number) (p : Page) : Page :=
  let p := animateIn el (Some delay) (Some baseDuration) None p in
  clearTransition el p.

(** [getDynamicThreshold(nodes)], lines 152-158; the literals 0.05, 0.1
    and 0.15 as exact decimals. *)
Definition getDynamicThreshold (nodes : list node) : number :=
  let n := length nodes in
  if (40 <? n)%nat then Finite (5 # 100)
  else if (20 <? n)%nat then Finite (1 # 10)
  else Finite (15 # 100).

(** [onceAttr === null ? true : onceAttr === 'true'], line 136. *)
Definition revealOnce (onceAttr : option string) : bool :=
  match onceAttr with
  | None => true
  | Some s => bool_decide (s = "true")
  end.

(** The body of [entries.forEach(entry => ...)], lines 130-142. *)
Definition onEntry (entry : IntersectionObserverEntry) (_ : nat) (p : Page)
  : Page :=
  let el := target entry in
  if negb (isIntersecting entry) then p
  else
    let delay := Number_or (nodeAttribute p el "data-reveal-delay") (num_of_Z 0) in
    let onceAttr := nodeAttribute p el "data-reveal-once" in
    let once := revealOnce onceAttr in
    let p := animateIn el (Some delay) (Some (num_of_Z 800)) None p in
    let p := clearTransition el p in
    if once then unobserve el p else p.

(** The callback handed to [new IntersectionObserver]. *)
Definition onIntersection (entries : list IntersectionObserverEntry)
  (p : Page) : Page :=
  forEach onEntry entries p.

(** The two loops of [setupReveals], lines 124-127 and 149. *)
Definition revealInitBody (el : node) (_ : nat) (p : Page) : Page :=
  let from := str_or (nodeAttribute p el "data-reveal-from") "up" in
  setInitialState el (Some from) p.

Definition observeBody (el : node) (_ : nat) (p : Page) : Page :=
  observe el p.

(** [setupReveals()], lines 114-150. *)
Definition setupReveals (p : Page) : Page :=
  let targets := querySelectorAll ["data-reveal"] p in
  if decide (length targets = 0) then p
  else if prefersReduced p then showImmediately targets p
  else
    (* Prepare initial state *)
    let p := forEach revealInitBody targets p in
    let p := setObserver (Some (mkObserver "0px 0px -10% 0px"
                                  (getDynamicThreshold targets) ∅)) p in
    forEach observeBody targets p.

(** The listener of the media query's change event, lines 174-177. *)
Definition onMotionChangeBody (p : Page) : Page :=
  let all := querySelectorAll ["data-intro"; "data-reveal"] p in
  showImmediately all p.

Definition runCallback (cb : Callback) (p : Page) : Page :=
  match cb with
  | InitFrame => setupReveals (runIntro p)
  | IntroTimeout el delay => introTimeoutBody el delay p
  | AnimateInFrame el delay duration easing =>
      animateInFrame el delay duration easing p
  | ClearTimeout el => clearTimeoutBody el p
  end.

End Script.

(** ** Script evaluation and host events *)

(** What the environment offers for [window.matchMedia(q)] and for the
    [addEventListener] member of the returned [MediaQueryList]. *)
Inductive Member :=
| IsFunction      (* present and callable *)
| IsUndefined     (* absent: the optional call [?.()] is skipped *)
| Throws.         (* calling it throws *)

#[global] Instance Member_eq_dec : EqDecision Member.
Proof. solve_decision. Defined.

Record MediaQueryList := mkMediaQueryList {
  matches : bool;
  addEventListener : Member
}.

Record Window := mkWindow {
  matchMedia : option MediaQueryList   (* [None]: not callable *)
}.

Inductive Completion (A : Type) :=
| Normal (a : A)
| Throw (e : string).
Arguments Normal {A} a.
Arguments Throw {A} e.

#[global] Instance completion_bind : MBind Completion :=
  λ A B k c,
    match c with
    | Normal a => k a
    | Throw e => Throw e
    end.

(** [try { body } catch (_) {}] around a computation on the page. *)
Definition tryCatch (body : Completion Page) (otherwise : Page)
  : Completion Page :=
  match body with
  | Normal p => Normal p
  | Throw _ => Normal otherwise
  end.

Definition callMatchMedia (w : Window) : Completion MediaQueryList :=
  match matchMedia w with
  | Some mq => Normal mq
  | None => Throw "TypeError: window.matchMedia is not a function"
  end.

(** [mq.addEventListener?.('change', ...)] *)
Definition attachChange (mq : MediaQueryList) (p : Page) : Completion Page :=
  match addEventListener mq with
  | IsFunction => Normal (setOnMotionChange true p)
  | IsUndefined => Normal p
  | Throws => Throw "addEventListener failed"
  end.

(** Evaluation of the IIFE on a parsed document: line 23 reads the
    preference, line 163 registers the DOMContentLoaded listener, lines
    172-178 try to subscribe to preference changes. *)
Definition main (w : Window) (doc : list Element) : Completion Page :=
  mq ← callMatchMedia w;
  let p := mkPage (matches mq) doc [] [] None true false false in
  tryCatch (mq ← callMatchMedia w; attachChange mq p) p.

Inductive Event :=
| EvDOMContentLoaded
| EvAnimationFrame
| EvTimeout (k : nat)          (* the k-th pending timer expires *)
| EvIntersection (entries : list IntersectionObserverEntry)
| EvMotionChange.

Section Events.
Context `{JSHost}.

(** One host event.  [None] when the host cannot raise the event in
    this state: DOMContentLoaded is dispatched once, a timer must be
    pending, and an intersection batch reports observed targets only.
    Timers may expire in any order. *)
Definition step (ev : Event) (p : Page) : option Page :=
  match ev with
  | EvDOMContentLoaded =>
      if domContentLoaded p then None
      else
        let p := setDomContentLoaded true p in
        Some (if onDOMContentLoaded p
              then requestAnimationFrame InitFrame p
              else p)
  | EvAnimationFrame =>
      let cbs := animationFrames p in
      Some (foldl (λ p cb, runCallback cb p) (setAnimationFrames [] p) cbs)
  | EvTimeout k =>
      match timeouts p !! k with
      | Some (cb, _) => Some (runCallback cb (setTimeouts (delete k (timeouts p)) p))
      | None => None
      end
  | EvIntersection entries =>
      match observer p with
      | Some o =>
          if forallb (λ e, bool_decide (target e ∈ targets o)) entries
          then Some (onIntersection entries p)
          else None
      | None => None
      end
  | EvMotionChange =>
      Some (if onMotionChange p then onMotionChangeBody p else p)
  end.

Fixpoint run (evs : list Event) (p : Page) : option Page :=
  match evs with
  | [] => Some p
  | ev :: evs' =>
      match step ev p with
      | Some p' => run evs' p'
      | None => None
      end
  end.

End Events.

(** ** A concrete host for closed examples

    Signed decimal integers are parsed and printed as ECMAScript does;
    anything else parses to [NaN]. *)

Definition digitValue (c : Ascii.ascii) : option Z :=
  let n := Ascii.nat_of_ascii c in
  if (48 <=? n)%nat && (n <=? 57)%nat then Some (Z.of_nat (n - 48)) else None.

Fixpoint parseDigits (acc : Z) (s : string) : option Z :=
  match s with
  | EmptyString => Some acc
  | String c s' =>
      match digitValue c with
      | Some d => parseDigits (10 * acc + d) s'
      | None => None
      end
  end.

Definition parseInteger (s : string) : number :=
  match s with
  | EmptyString => num_of_Z 0
  | String (Ascii.Ascii true false true true false true false false) (String c s') =>
      match parseDigits 0 (String c s') with
      | Some z => num_of_Z (- z)
      | None => NaN
      end
  | _ =>
      match parseDigits 0 s with
      | Some z => num_of_Z z
      | None => NaN
      end
  end.

Definition printNumber (x : number) : string :=
  match x with
  | NaN => "NaN"
  | Infinity => "Infinity"
  | NegInfinity => "-Infinity"
  | Finite q =>
      if decide (Qden q = 1%positive) then pretty (Qnum q)
      else pretty (Qnum q) +:+ "/" +:+ pretty (Zpos (Qden q))
  end.

Definition integerHost : JSHost :=
  {| StringToNumber := parseInteger; NumberToString := printNumber |}.

(** ** Derived notions used in the statements *)

Section Notions.
Context `{JSHost}.

(** The sort key of an intro element. *)
Definition introKey (p : Page) (el : node) : number :=
  Number_or (nodeAttribute p el "data-intro-order") (num_of_Z 0).

(** [a] is animated before [b]: smaller key, or equal key and earlier
    in the document. *)
Definition introBefore (p : Page) (a b : node) : Prop :=
  num_ltb (introKey p a) (introKey p b) = true
  ∨ (num_eqb (introKey p a) (introKey p b) = true ∧ (a < b)%nat).

(** The order attribute of [el] converts to a number. *)
Definition numericKey (p : Page) (el : node) : Prop :=
  is_NaN (introKey p el) = false.

(** The hidden, offset state written by [setInitialState]; the
    transition property is not touched. *)
Definition hiddenStyle (from : string) (s : Style) : Style :=
  mkStyle "0" "opacity, transform"
          (translateFrom (Some from) (num_of_Z 10)) (transition s).

(** The delay a reveal element is animated with. *)
Definition revealDelay (p : Page) (el : node) : number :=
  Number_or (nodeAttribute p el "data-reveal-delay") (num_of_Z 0).

(** The order in which [runIntro] visits the intro elements. *)
Definition introOrder (p : Page) : list node :=
  Array_sort (introCompare p) (querySelectorAll ["data-intro"] p).

End Notions.

(** Targets of the intro timeouts pending on a page, in scheduling order. *)
(** The static part of a page: what no callback ever assigns. *)
Definition flags (p : Page) : bool * bool * bool * bool :=
  (prefersReduced p, onDOMContentLoaded p, onMotionChange p, domContentLoaded p).

Definition scheduledIntro (p : Page) : list node :=
  omap (λ t, match t.1 with IntroTimeout el _ => Some el | _ => None end)
       (timeouts p).

Definition callbackTarget (cb : Callback) : option node :=
  match cb with
  | InitFrame => None
  | IntroTimeout el _ | AnimateInFrame el _ _ _ | ClearTimeout el => Some el
  end.

(** The deferred work that concerns one element. *)
Definition framesFor (el : node) (p : Page) : list Callback :=
  filter (λ cb, callbackTarget cb = Some el) (animationFrames p).
Definition timeoutsFor (el : node) (p : Page) : list (Callback * nat) :=
  filter (λ t, callbackTarget t.1 = Some el) (timeouts p).

Definition nodeStyle (p : Page) (el : node) : option Style :=
  style <$> document p !! el.

(** The attributes of the document, which the script never changes. *)
Definition attrsOf (p : Page) : list (gmap string string) :=
  attributes <$> document p.

(** A loop that rewrites the style of each visited node. *)
Definition restyle (G : node → Style → Style) (nodes : list node)
  (d : list Element) : list Element :=
  foldl (λ d el, alter (with_style (G el)) el d) d nodes.

(** The element carries one of the two presence flags. *)
Definition flagged (e : Element) : Prop :=
  is_Some (getAttribute e "data-intro") ∨ is_Some (getAttribute e "data-reveal").

(** [d] is the parsed document [doc] in which some flagged elements have
    been put in the fully revealed state and nothing else was written. *)
Definition onlyShown (doc d : list Element) : Prop :=
  length d = length doc
  ∧ ∀ el e, d !! el = Some e →
      ∃ e0, doc !! el = Some e0
            ∧ attributes e = attributes e0
            ∧ (e = e0 ∨ (flagged e0 ∧ style e = mkStyle "1" "" "none" "")).

Definition allShown (d : list Element) : Prop :=
  ∀ el e, d !! el = Some e → flagged e → style e = mkStyle "1" "" "none" "".

(** Initialisation is over: the DOMContentLoaded frame has run. *)
Definition settled (p : Page) : Prop :=
  domContentLoaded p = true
  ∧ (InitFrame ∉ animationFrames p)
  ∧ (InitFrame ∉ (timeouts p).*1).

(** The three phases of a page. *)
Definition phased (p : Page) : Prop :=
  (domContentLoaded p = false ∧ animationFrames p = [] ∧ timeouts p = []
   ∧ observer p = None)
  ∨ (domContentLoaded p = true ∧ animationFrames p = [InitFrame]
     ∧ timeouts p = [] ∧ observer p = None)
  ∨ settled p.

(** What holds of every page of a session that started with the
    reduced-motion preference set. *)
Definition reducedInv (doc : list Element) (p : Page) : Prop :=
  prefersReduced p = true
  ∧ onDOMContentLoaded p = true
  ∧ timeouts p = []
  ∧ observer p = None
  ∧ onlyShown doc (document p)
  ∧ ((domContentLoaded p = false ∧ animationFrames p = [])
     ∨ (domContentLoaded p = true ∧ animationFrames p = [InitFrame])
     ∨ (domContentLoaded p = true ∧ animationFrames p = []
        ∧ allShown (document p))).

(** [el] is an element of the parsed document carrying a presence flag. *)
Definition flaggedIn (doc : list Element) (el : node) : Prop :=
  ∃ e0, doc !! el = Some e0 ∧ flagged e0.

Definition revealIn (doc : list Element) (el : node) : Prop :=
  ∃ e0, doc !! el = Some e0 ∧ is_Some (getAttribute e0 "data-reveal").

(** The animation frames the script requests: the initialisation frame,
    or an animate-in of a flagged element with duration 900 (intro) or
    800 (reveal) and the default easing. *)
Definition okFrame (doc : list Element) (cb : Callback) : Prop :=
  match cb with
  | InitFrame => True
  | AnimateInFrame el _ duration easing =>
      flaggedIn doc el
      ∧ (duration = num_of_Z 900 ∨ duration = num_of_Z 800)
      ∧ easing = defaultEasing
  | _ => False
  end.

(** The timers the script sets: the 20ms intro timeout and the 1100ms
    cleanup, each for a flagged element. *)
Definition okTimeout (doc : list Element) (t : Callback * nat) : Prop :=
  match t.1 with
  | IntroTimeout el _ => flaggedIn doc el ∧ t.2 = 20%nat
  | ClearTimeout el => flaggedIn doc el ∧ t.2 = 1100%nat
  | _ => False
  end.

Definition flaggedTarget (doc : list Element) (cb : Callback) : Prop :=
  match callbackTarget cb with
  | Some el => flaggedIn doc el
  | None => True
  end.

(** What holds of every page of a session on the parsed document [doc]. *)
Definition tidy (doc : list Element) (p : Page) : Prop :=
  attrsOf p = attributes <$> doc
  ∧ Forall (okFrame doc) (animationFrames p)
  ∧ Forall (okTimeout doc) (timeouts p)
  ∧ (∀ el, el ∈ observed p → revealIn doc el)
  ∧ (∀ el e0, doc !! el = Some e0 → ¬ flagged e0 → document p !! el = Some e0).

(** The fully revealed state written by [showImmediately]. *)
Definition shownStyle : Style := mkStyle "1" "" "none" "".

(** ** Example documents *)

Definition blankStyle : Style := mkStyle "" "" "" "".

Definition element (attrs : list (string * string)) : Element :=
  mkElement (list_to_map attrs) blankStyle.

Definition motionWindow (reduce : bool) : Window :=
  mkWindow (Some (mkMediaQueryList reduce IsFunction)).

Definition pageOf (reduce : bool) (doc : list Element) : Page :=
  mkPage reduce doc [] [] None true true false.

(** The hero block of the usage comment, followed by one reveal card. *)
Definition heroDocument : list Element :=
  [ element [("data-intro", ""); ("data-intro-order", "1")];
    element [("data-intro", ""); ("data-intro-order", "2")];
    element [("data-intro", ""); ("data-intro-order", "3")];
    element [("data-reveal", ""); ("data-reveal-from", "up");
             ("data-reveal-delay", "120")] ].

(** Three intro elements out of order, one with its own delay. *)
Definition staggerDocument : list Element :=
  [ element [("data-intro", ""); ("data-intro-order", "2")];
    element [("data-intro", ""); ("data-intro-order", "1");
             ("data-intro-delay", "500")];
    element [("data-intro", "")] ].

(** The hero page once the initialisation frame has run. *)
Definition heroReady : Page :=
  default (pageOf false heroDocument)
    (@run integerHost [EvDOMContentLoaded; EvAnimationFrame]
       (pageOf false heroDocument)).

(** An intro element, an element without flag, and a reveal element that
    may reveal repeatedly. *)
Definition mixedDocument : list Element :=
  [ element [("data-intro", ""); ("data-intro-from", "left")];
    element [("id", "footer")];
    element [("data-reveal", ""); ("data-reveal-once", "false")] ].

(** A document without any flagged element. *)
Definition bareDocument : list Element :=
  [ element [("id", "header")]; element [("id", "footer")] ].

(** Two intro elements without any optional attribute. *)
Definition plainIntroDocument : list Element :=
  [ element [("data-intro", "")]; element [("data-intro", "")] ].

(** The plain intro page after the first intro timeout has expired: the
    second intro timeout and the first cleanup are pending. *)
Definition plainAnimating : Page :=
  default (pageOf false plainIntroDocument)
    (@run integerHost [EvDOMContentLoaded; EvAnimationFrame; EvTimeout 0]
       (pageOf false plainIntroDocument)).

(** The mixed page after initialisation and a first intersection of its
    reveal element. *)
Definition mixedRevealed : Page :=
  default (pageOf false mixedDocument)
    (@run integerHost
       [EvDOMContentLoaded; EvAnimationFrame; EvIntersection [mkEntry 2 true]]
       (pageOf false mixedDocument)).

(** * Properties *)

Example translateFrom_left_10 :
  @translateFrom integerHost (Some "LEFT") (num_of_Z 10) = "translateX(10px)".
Proof. vm_compute. reflexivity. Qed.

(** ** Numbers *)

Lemma Qcompare_0_sub (a b : Q) : (0 ?= a - b)%Q = (b ?= a)%Q.
Proof.
  destruct (Qcompare_spec b a) as [E|L|G].
  - apply Qeq_alt. rewrite E. ring.
  - apply Qlt_alt. apply (proj1 (Qlt_minus_iff b a)) in L. exact L.
  - apply Qgt_alt. apply (proj1 (Qlt_minus_iff a b)) in G.
    apply Qopp_lt_compat in G.
    assert (E : (- (b + - a) == a - b)%Q) by ring.
    rewrite E in G. exact G.
Qed.

Ltac num_simpl :=
  cbn [num_ltb num_eqb num_pos num_sub num_add is_NaN] in *.

(** The comparator of [sort] is positive exactly when its first argument
    is the larger one. *)
Lemma num_pos_sub (a b : number) :
  is_NaN a = false → is_NaN b = false →
  num_pos (num_sub a b) = num_ltb b a.
Proof.
  destruct a, b; num_simpl; try done.
  intros _ _. by rewrite Qcompare_0_sub.
Qed.

Lemma num_ltb_total (a b : number) :
  is_NaN a = false → is_NaN b = false →
  num_ltb b a = false →
  num_ltb a b = true ∨ num_eqb a b = true.
Proof.
  destruct a as [| |x|], b as [| |y|]; num_simpl; try done; auto.
  intros _ _. destruct (Qcompare_spec y x) as [E|L|G]; try done; intros _.
  - right. apply Qeq_bool_iff. by symmetry.
  - left. by destruct (Qcompare_spec x y) as [E|L|G'];
      [apply Qlt_not_eq in G | | destruct (Qlt_irrefl x); by apply Qlt_trans with y].
Qed.

Lemma Qcompare_Lt_iff (x y : Q) :
  match (x ?= y)%Q with Lt => true | _ => false end = true ↔ (x < y)%Q.
Proof.
  destruct (Qcompare_spec x y) as [E|L|G]; split; try done.
  - intros L. by apply Qlt_not_eq in L.
  - intros L. destruct (Qlt_irrefl x). by apply Qlt_trans with y.
Qed.

Lemma num_ltb_trans (a b c : number) :
  num_ltb a b = true → num_ltb b c = true → num_ltb a c = true.
Proof.
  destruct a as [| |x|], b as [| |y|], c as [| |z|]; num_simpl; try done.
  rewrite !Qcompare_Lt_iff. apply Qlt_trans.
Qed.

Lemma num_ltb_eqb_trans (a b c : number) :
  num_ltb a b = true → num_eqb b c = true → num_ltb a c = true.
Proof.
  destruct a as [| |x|], b as [| |y|], c as [| |z|]; num_simpl; try done.
  rewrite !Qcompare_Lt_iff, Qeq_bool_iff. by intros L <-.
Qed.

Lemma num_eqb_ltb_trans (a b c : number) :
  num_eqb a b = true → num_ltb b c = true → num_ltb a c = true.
Proof.
  destruct a as [| |x|], b as [| |y|], c as [| |z|]; num_simpl; try done.
  rewrite !Qcompare_Lt_iff, Qeq_bool_iff. by intros ->.
Qed.

Lemma num_eqb_trans (a b c : number) :
  num_eqb a b = true → num_eqb b c = true → num_eqb a c = true.
Proof.
  destruct a as [| |x|], b as [| |y|], c as [| |z|]; num_simpl; try done.
  rewrite !Qeq_bool_iff. intros -> ->. reflexivity.
Qed.

(** ** Selecting elements *)

Lemma elem_of_selectFrom (names : list string) (doc : list Element) (i el : node) :
  el ∈ selectFrom names i doc ↔
  (i ≤ el)%nat ∧ ∃ e, doc !! (el - i)%nat = Some e ∧ matchesSelector names e = true.
Proof.
  revert i. induction doc as [|e doc IH]; intros i; simpl.
  - split; [by intros ?%elem_of_nil | by intros (_ & ? & ? & _)].
  - assert (Hstep : el ∈ selectFrom names (S i) doc ↔
                    (i < el)%nat ∧ ∃ e', (e :: doc) !! (el - i)%nat = Some e'
                                         ∧ matchesSelector names e' = true).
    { rewrite IH. split.
      - intros (Hle & e' & Hl & Hm). split; [lia|]. exists e'. split; [|done].
        replace (el - i)%nat with (S (el - S i)) by lia. done.
      - intros (Hlt & e' & Hl & Hm). split; [lia|]. exists e'. split; [|done].
        replace (el - i)%nat with (S (el - S i)) in Hl by lia. done. }
    destruct (matchesSelector names e) eqn:Hm.
    + rewrite elem_of_cons, Hstep. split.
      * intros [->|(Hlt & Hex)]; [|split; [lia|done]].
        split; [lia|]. exists e. by rewrite Nat.sub_diag.
      * intros (Hle & e' & Hl & Hm').
        destruct (decide (el = i)) as [->|Hne]; [by left|right].
        split; [lia|]. by exists e'.
    + rewrite Hstep. split.
      * intros (Hlt & Hex). split; [lia|done].
      * intros (Hle & e' & Hl & Hm').
        destruct (decide (el = i)) as [->|Hne].
        -- rewrite Nat.sub_diag in Hl. simpl in Hl. congruence.
        -- split; [lia|]. by exists e'.
Qed.

Lemma elem_of_querySelectorAll (names : list string) (p : Page) (el : node) :
  el ∈ querySelectorAll names p ↔
  ∃ e, document p !! el = Some e ∧ matchesSelector names e = true.
Proof.
  unfold querySelectorAll. rewrite elem_of_selectFrom, Nat.sub_0_r.
  split; [by intros [_ ?] | intros ?; split; [lia|done]].
Qed.

Lemma selectFrom_increasing (names : list string) (doc : list Element) (i : node) :
  StronglySorted lt (selectFrom names i doc).
Proof.
  revert i. induction doc as [|e doc IH]; intros i; simpl; [constructor|].
  destruct (matchesSelector names e); [|apply IH].
  constructor; [apply IH|].
  apply Forall_forall. intros y [Hy _]%elem_of_selectFrom. lia.
Qed.

Lemma StronglySorted_lt_NoDup (l : list nat) : StronglySorted lt l → NoDup l.
Proof.
  induction 1 as [|x l _ IH Hall]; constructor; [|done].
  intros Hx. rewrite Forall_forall in Hall. specialize (Hall _ Hx). lia.
Qed.

Lemma querySelectorAll_NoDup (names : list string) (p : Page) :
  NoDup (querySelectorAll names p).
Proof. apply StronglySorted_lt_NoDup, selectFrom_increasing. Qed.

(** ** Sorting *)

Lemma sortInsert_perm (cmp : node → node → number) (x : node) (l : list node) :
  sortInsert cmp x l ≡ₚ x :: l.
Proof.
  induction l as [|y l IH]; simpl; [done|].
  destruct (num_pos (cmp x y)); [|done].
  rewrite IH. apply Permutation_swap.
Qed.

Lemma Array_sort_perm (cmp : node → node → number) (l : list node) :
  Array_sort cmp l ≡ₚ l.
Proof.
  induction l as [|x l IH]; simpl; [done|].
  by rewrite sortInsert_perm, IH.
Qed.

(** Two sorted arrangements of the same elements coincide, so the order
    below does not depend on how the host implements its stable sort. *)
Lemma sorted_perm_unique {A} (R : A → A → Prop) (l1 l2 : list A) :
  (∀ a b, R a b → R b a → False) →
  StronglySorted R l1 → StronglySorted R l2 → l1 ≡ₚ l2 → l1 = l2.
Proof.
  intros Hasym. revert l2.
  induction l1 as [|x l1 IH]; intros l2 Hs1 Hs2 Hperm.
  - by apply Permutation_nil_l in Hperm.
  - destruct l2 as [|y l2]; [by apply Permutation_nil_r in Hperm|].
    apply StronglySorted_inv in Hs1 as [Hs1 Hx].
    apply StronglySorted_inv in Hs2 as [Hs2 Hy].
    rewrite Forall_forall in Hx, Hy.
    assert (x = y) as ->.
    { assert (Hxin : x ∈ y :: l2) by (rewrite <- Hperm; left).
      assert (Hyin : y ∈ x :: l1) by (rewrite Hperm; left).
      apply elem_of_cons in Hxin as [?|Hxin]; [done|].
      apply elem_of_cons in Hyin as [?|Hyin]; [done|].
      destruct (Hasym x y); auto. }
    f_equal. apply IH; [done..|]. by apply Permutation_cons_inv in Hperm.
Qed.

Section Sorting.
Context `{JSHost} (p : Page).

Lemma introBefore_asym (a b : node) :
  introBefore p a b → introBefore p b a → False.
Proof.
  unfold introBefore.
  destruct (introKey p a) as [| |x|], (introKey p b) as [| |y|];
    num_simpl; try naive_solver lia.
  rewrite !Qcompare_Lt_iff, !Qeq_bool_iff.
  intros [L|[E Hlt]] [L'|[E' Hlt']]; try lia.
  - destruct (Qlt_irrefl x). by apply Qlt_trans with y.
  - rewrite E' in L. by apply Qlt_irrefl in L.
  - rewrite E in L'. by apply Qlt_irrefl in L'.
Qed.

Lemma introCompare_pos (a b : node) :
  numericKey p a → numericKey p b →
  num_pos (introCompare p a b) = num_ltb (introKey p b) (introKey p a).
Proof. intros Ha Hb. by apply num_pos_sub. Qed.

(** An element that is not behind [y] and precedes it in the document
    stays before everything [y] is before. *)
Lemma introBefore_through (x y z : node) :
  numericKey p x → numericKey p y →
  num_ltb (introKey p y) (introKey p x) = false → (x < y)%nat →
  (x < z)%nat → introBefore p y z → introBefore p x z.
Proof.
  intros Hx Hy Hxy Hlt Hxz Hyz.
  destruct (num_ltb_total _ _ Hx Hy Hxy) as [L|E], Hyz as [L'|[E' _]].
  - left. by eapply num_ltb_trans.
  - left. by eapply num_ltb_eqb_trans.
  - left. by eapply num_eqb_ltb_trans.
  - right. split; [by eapply num_eqb_trans | done].
Qed.

Lemma sortInsert_sorted (x : node) (s : list node) :
  numericKey p x → Forall (numericKey p) s → Forall (lt x) s →
  StronglySorted (introBefore p) s →
  StronglySorted (introBefore p) (sortInsert (introCompare p) x s).
Proof.
  intros Hx. induction s as [|y s IH]; intros Hnum Hlt Hs; simpl.
  - repeat constructor.
  - apply Forall_cons in Hnum as [Hy Hnum].
    apply Forall_cons in Hlt as [Hxy Hlt].
    apply StronglySorted_inv in Hs as [Hs Hys].
    rewrite introCompare_pos by done.
    destruct (num_ltb (introKey p y) (introKey p x)) eqn:Hcmp.
    + constructor; [by apply IH|].
      rewrite sortInsert_perm. constructor; [by left | done].
    + constructor; [by constructor|].
      constructor.
      * destruct (num_ltb_total _ _ Hx Hy Hcmp); [by left | by right].
      * rewrite Forall_forall in Hys, Hlt |- *. intros z Hz.
        apply introBefore_through with y; auto.
Qed.

Lemma Array_sort_sorted (l : list node) :
  Forall (numericKey p) l → StronglySorted lt l →
  StronglySorted (introBefore p) (Array_sort (introCompare p) l).
Proof.
  induction l as [|x l IH]; intros Hnum Hl; simpl; [constructor|].
  apply Forall_cons in Hnum as [Hx Hnum].
  apply StronglySorted_inv in Hl as [Hl Hxl].
  apply sortInsert_sorted; auto.
  - by rewrite Array_sort_perm.
  - by rewrite Array_sort_perm.
Qed.

Lemma introOrder_perm : introOrder p ≡ₚ querySelectorAll ["data-intro"] p.
Proof. apply Array_sort_perm. Qed.

Lemma introOrder_NoDup : NoDup (introOrder p).
Proof. rewrite introOrder_perm. apply querySelectorAll_NoDup. Qed.

Lemma introOrder_sorted :
  Forall (numericKey p) (querySelectorAll ["data-intro"] p) →
  StronglySorted (introBefore p) (introOrder p).
Proof. intros Hnum. by apply Array_sort_sorted, selectFrom_increasing. Qed.

End Sorting.

(** ** Style updates and loops *)

Lemma with_style_attrs (f : Style → Style) (el : node) (d : list Element) :
  attributes <$> alter (with_style f) el d = attributes <$> d.
Proof.
  rewrite (list_fmap_alter attributes (with_style f) id).
  - by apply list_alter_id.
  - by apply Forall_forall.
Qed.

Lemma updateStyle_attrs (el : node) (f : Style → Style) (p : Page) :
  attrsOf (updateStyle el f p) = attrsOf p.
Proof. apply with_style_attrs. Qed.

Lemma nodeAttribute_attrsOf (p p' : Page) (el : node) (name : string) :
  attrsOf p = attrsOf p' → nodeAttribute p el name = nodeAttribute p' el name.
Proof.
  intros Heq. unfold nodeAttribute, getAttribute.
  assert (Hl : attrsOf p !! el = attrsOf p' !! el) by by rewrite Heq.
  unfold attrsOf in Hl. rewrite !list_lookup_fmap in Hl.
  destruct (document p !! el) as [e|], (document p' !! el) as [e'|];
    simplify_eq/=; [|done].
  by replace (attributes e') with (attributes e).
Qed.

Lemma selectFrom_attrs (names : list string) (d d' : list Element) (i : node) :
  attributes <$> d = attributes <$> d' →
  selectFrom names i d = selectFrom names i d'.
Proof.
  revert d' i. induction d as [|e d IH]; intros [|e' d'] i Heq; try done.
  simpl in Heq. injection Heq as He Heq. simpl.
  assert (Hm : matchesSelector names e = matchesSelector names e').
  { unfold matchesSelector, hasAttribute. by rewrite He. }
  rewrite Hm. by rewrite (IH d' (S i)).
Qed.

Lemma querySelectorAll_attrsOf (names : list string) (p p' : Page) :
  attrsOf p = attrsOf p' → querySelectorAll names p = querySelectorAll names p'.
Proof. apply selectFrom_attrs. Qed.

Lemma forEachFrom_preserves {A X} (f : Page → X)
  (body : A → nat → Page → Page) :
  (∀ x i p, f (body x i p) = f p) →
  ∀ xs i p, f (forEachFrom body i xs p) = f p.
Proof.
  intros Hbody. induction xs as [|x xs IH]; intros i p; simpl; [done|].
  by rewrite IH.
Qed.

Lemma restyle_attrs (G : node → Style → Style) (nodes : list node)
  (d : list Element) :
  attributes <$> restyle G nodes d = attributes <$> d.
Proof.
  revert d. induction nodes as [|x nodes IH]; intros d; [done|].
  unfold restyle in *. simpl. by rewrite IH, with_style_attrs.
Qed.

Lemma restyle_ext (G G' : node → Style → Style) (nodes : list node)
  (d : list Element) :
  (∀ el s, G el s = G' el s) → restyle G nodes d = restyle G' nodes d.
Proof.
  intros Hext. revert d. induction nodes as [|x nodes IH]; intros d; [done|].
  unfold restyle in *. simpl. rewrite IH. f_equal.
  apply list_alter_ext; [|done]. intros e _. unfold with_style. by rewrite Hext.
Qed.

Lemma restyle_lookup_notin (G : node → Style → Style) (nodes : list node)
  (d : list Element) (el : node) :
  el ∉ nodes → restyle G nodes d !! el = d !! el.
Proof.
  revert d. induction nodes as [|x nodes IH]; intros d Hel; [done|].
  apply not_elem_of_cons in Hel as [Hne Hel].
  unfold restyle in *. simpl. rewrite IH by done.
  by apply list_lookup_alter_ne.
Qed.

Lemma restyle_lookup_in (G : node → Style → Style) (nodes : list node)
  (d : list Element) (el : node) :
  NoDup nodes → el ∈ nodes →
  restyle G nodes d !! el = with_style (G el) <$> d !! el.
Proof.
  revert d. induction nodes as [|x nodes IH]; intros d Hnd Hel.
  - by apply elem_of_nil in Hel.
  - apply NoDup_cons in Hnd as [Hx Hnd].
    change (restyle G (x :: nodes) d)
      with (restyle G nodes (alter (with_style (G x)) x d)).
    destruct (decide (el = x)) as [->|Hne].
    + rewrite restyle_lookup_notin by done. apply list_lookup_alter_eq.
    + apply elem_of_cons in Hel as [?|Hel]; [done|].
      rewrite IH by done. by rewrite list_lookup_alter_ne.
Qed.

(** A loop whose body rewrites the style of the visited node from the
    attributes alone is a [restyle] of the document. *)
Lemma forEachFrom_restyle (body : node → nat → Page → Page)
  (G : Page → node → Style → Style) :
  (∀ el i p, document (body el i p) = alter (with_style (G p el)) el (document p)) →
  (∀ p p' el s, attrsOf p = attrsOf p' → G p el s = G p' el s) →
  ∀ nodes i p,
    document (forEachFrom body i nodes p) = restyle (G p) nodes (document p).
Proof.
  intros Hdoc Hext. induction nodes as [|x nodes IH]; intros i p; [done|].
  simpl. rewrite IH, Hdoc.
  change (restyle (G p) (x :: nodes) (document p))
    with (restyle (G p) nodes (alter (with_style (G p x)) x (document p))).
  apply restyle_ext. intros el s. apply Hext.
  unfold attrsOf. rewrite Hdoc. apply with_style_attrs.
Qed.

Section Loops.
Context `{JSHost}.

Lemma setInitialState_document (el : node) (from : string) (p : Page) :
  document (setInitialState el (Some from) p)
  = alter (with_style (hiddenStyle from)) el (document p).
Proof.
  unfold setInitialState, updateStyle. simpl.
  rewrite !list_alter_alter_eq. by apply list_alter_ext.
Qed.

Lemma showImmediately_document (nodes : list node) (p : Page) :
  document (showImmediately nodes p)
  = restyle (λ _ _, shownStyle) nodes (document p).
Proof.
  unfold showImmediately, forEach.
  apply (forEachFrom_restyle _ (λ _ _ _, shownStyle)); [|done].
  intros el _ q. unfold updateStyle. simpl.
  rewrite !list_alter_alter_eq. by apply list_alter_ext.
Qed.

(** [showImmediately] touches nothing but inline styles. *)
Lemma showImmediately_rest (nodes : list node) (p : Page) :
  timeouts (showImmediately nodes p) = timeouts p
  ∧ animationFrames (showImmediately nodes p) = animationFrames p
  ∧ observer (showImmediately nodes p) = observer p
  ∧ attrsOf (showImmediately nodes p) = attrsOf p.
Proof.
  unfold showImmediately, forEach.
  repeat split; try by apply forEachFrom_preserves.
  apply (forEachFrom_preserves attrsOf). intros el _ q.
  by rewrite !updateStyle_attrs.
Qed.

Lemma introDelay_attrsOf (p p' : Page) (el : node) (i : nat) :
  attrsOf p = attrsOf p' → introDelay p el i = introDelay p' el i.
Proof.
  intros Heq. unfold introDelay.
  by rewrite (nodeAttribute_attrsOf p p' el _ Heq).
Qed.

Lemma introBody_document (el : node) (i : nat) (p : Page) :
  document (introBody el i p)
  = alter (with_style (hiddenStyle (str_or (nodeAttribute p el "data-intro-from") "up")))
          el (document p).
Proof. exact (setInitialState_document el _ p). Qed.

Lemma introBody_attrs (el : node) (i : nat) (p : Page) :
  attrsOf (introBody el i p) = attrsOf p.
Proof.
  unfold attrsOf. rewrite introBody_document. apply with_style_attrs.
Qed.

Lemma forEachFrom_introBody_timeouts (nodes : list node) (i : nat) (p : Page) :
  timeouts (forEachFrom introBody i nodes p)
  = (timeouts p
     ++ imap (λ k el, (IntroTimeout el (introDelay p el (i + k)), 20)) nodes)%list.
Proof.
  revert i p. induction nodes as [|x nodes IH]; intros i p; simpl.
  - by rewrite app_nil_r.
  - rewrite IH. unfold introBody at 2. simpl.
    rewrite <- app_assoc. simpl. rewrite Nat.add_0_r. do 2 f_equal.
    apply imap_ext. intros k el _. simpl.
    rewrite (introDelay_attrsOf _ p) by apply introBody_attrs.
    do 3 f_equal. lia.
Qed.

Lemma introBody_rest (el : node) (i : nat) (p : Page) :
  animationFrames (introBody el i p) = animationFrames p
  ∧ observer (introBody el i p) = observer p.
Proof. done. Qed.

Lemma forEachFrom_introBody_document (nodes : list node) (i : nat) (p : Page) :
  document (forEachFrom introBody i nodes p)
  = restyle (λ el, hiddenStyle (str_or (nodeAttribute p el "data-intro-from") "up"))
            nodes (document p).
Proof.
  apply (forEachFrom_restyle introBody
           (λ p el, hiddenStyle (str_or (nodeAttribute p el "data-intro-from") "up"))).
  - intros el k q. apply introBody_document.
  - intros q q' el s Heq. by rewrite (nodeAttribute_attrsOf q q' el _ Heq).
Qed.

End Loops.

(** ** The intro runner *)

Section Intro.
Context `{JSHost}.

Lemma runIntro_animated (p : Page) :
  prefersReduced p = false → runIntro p = forEach introBody (introOrder p) p.
Proof.
  intros Hpr. unfold runIntro, introOrder. rewrite Hpr.
  case_decide as Hlen; [|done].
  by apply nil_length_inv in Hlen as ->.
Qed.

Lemma runIntro_reduced (p : Page) :
  prefersReduced p = true →
  runIntro p = showImmediately (querySelectorAll ["data-intro"] p) p.
Proof.
  intros Hpr. unfold runIntro. rewrite Hpr.
  case_decide as Hlen; [|done].
  by apply nil_length_inv in Hlen as ->.
Qed.

Lemma runIntro_timeouts (p : Page) :
  prefersReduced p = false →
  timeouts (runIntro p)
  = (timeouts p
     ++ imap (λ i el, (IntroTimeout el (introDelay p el i), 20)) (introOrder p))%list.
Proof.
  intros Hpr. rewrite runIntro_animated by done.
  apply (forEachFrom_introBody_timeouts (introOrder p) 0 p).
Qed.

Lemma runIntro_document (p : Page) :
  prefersReduced p = false →
  document (runIntro p)
  = restyle (λ el, hiddenStyle (str_or (nodeAttribute p el "data-intro-from") "up"))
            (introOrder p) (document p).
Proof.
  intros Hpr. rewrite runIntro_animated by done.
  apply forEachFrom_introBody_document.
Qed.

Lemma omap_intro_targets (g : nat → node → number) (l : list node) :
  omap (λ t : Callback * nat,
          match t.1 with IntroTimeout el _ => Some el | _ => None end)
       (imap (λ i el, (IntroTimeout el (g i el), 20)) l) = l.
Proof.
  revert g. induction l as [|x l IH]; intros g; [done|].
  rewrite imap_cons. simpl. f_equal. apply (IH (λ i, g (S i))).
Qed.

(** C1: when the order attributes of the intro elements are numeric, the
    list the intro runner visits is the one arrangement of the intro
    elements that is sorted by key and document position, and the element
    at index [i] of it is scheduled with delay [i * 220] when it has no
    delay attribute and with the numeric value of the attribute
    otherwise; the timeout then requests the animation with that delay
    and duration 900. *)
Theorem runIntro_delay_duration (p : Page) (i : nat) (el : node) :
  prefersReduced p = false →
  Forall (numericKey p) (querySelectorAll ["data-intro"] p) →
  introOrder p !! i = Some el →
  (introOrder p ≡ₚ querySelectorAll ["data-intro"] p
   ∧ StronglySorted (introBefore p) (introOrder p)
   ∧ ∀ order', order' ≡ₚ querySelectorAll ["data-intro"] p →
       StronglySorted (introBefore p) order' → order' = introOrder p)
  ∧ ∃ delay,
      timeouts (runIntro p) !! (length (timeouts p) + i)%nat
        = Some (IntroTimeout el delay, 20)
      ∧ match nodeAttribute p el "data-intro-delay" with
        | None => delay = num_of_Z (Z.of_nat i * 220)
        | Some delayAttr => delay = StringToNumber delayAttr
        end
      ∧ (∀ q, animationFrames (runCallback (IntroTimeout el delay) q)
              = (animationFrames q
                 ++ [AnimateInFrame el delay (num_of_Z 900) defaultEasing])%list).
Proof.
  intros Hpr Hnum Hi. split.
  { split_and!.
    - apply introOrder_perm.
    - by apply introOrder_sorted.
    - intros order' Hperm Hsorted.
      apply (sorted_perm_unique (introBefore p)); [apply introBefore_asym|done| |].
      + by apply introOrder_sorted.
      + by rewrite Hperm, introOrder_perm. }
  exists (introDelay p el i). split_and!.
  - rewrite runIntro_timeouts by done.
    rewrite lookup_app_r by lia.
    replace (length (timeouts p) + i - length (timeouts p))%nat with i by lia.
    by rewrite list_lookup_imap, Hi.
  - unfold introDelay. by destruct (nodeAttribute p el "data-intro-delay").
  - done.
Qed.

(** C2: the intro runner schedules the elements in ascending order of
    their numeric order attribute, a missing (or empty) attribute
    counting as 0, and elements with equal keys in document order.  The
    key of an element is the number its order attribute converts to. *)
Theorem runIntro_order (p : Page) :
  prefersReduced p = false →
  Forall (numericKey p) (querySelectorAll ["data-intro"] p) →
  ∃ order,
    scheduledIntro (runIntro p) = (scheduledIntro p ++ order)%list
    ∧ order ≡ₚ querySelectorAll ["data-intro"] p
    ∧ StronglySorted (introBefore p) order
    ∧ (∀ order', order' ≡ₚ querySelectorAll ["data-intro"] p →
         StronglySorted (introBefore p) order' → order' = order)
    ∧ (∀ a b, introCompare p a b = num_sub (introKey p a) (introKey p b))
    ∧ (∀ el, nodeAttribute p el "data-intro-order" = None
             → introKey p el = num_of_Z 0)
    ∧ (∀ el, nodeAttribute p el "data-intro-order" = Some ""
             → introKey p el = num_of_Z 0)
    ∧ (∀ el s, nodeAttribute p el "data-intro-order" = Some s → s ≠ ""
               → introKey p el = StringToNumber s).
Proof.
  intros Hpr Hnum. exists (introOrder p). split_and!.
  - unfold scheduledIntro. rewrite runIntro_timeouts by done.
    rewrite omap_app. f_equal. apply omap_intro_targets.
  - apply introOrder_perm.
  - by apply introOrder_sorted.
  - intros order' Hperm Hsorted.
    apply (sorted_perm_unique (introBefore p)); [apply introBefore_asym|done| |].
    + by apply introOrder_sorted.
    + by rewrite Hperm, introOrder_perm.
  - done.
  - intros el Hnone. unfold introKey. by rewrite Hnone.
  - intros el Hempty. unfold introKey. by rewrite Hempty.
  - intros el s Hs Hne. unfold introKey, Number_or. rewrite Hs.
    by rewrite decide_False.
Qed.

End Intro.

(** ** The reveal watcher *)

Lemma elem_of_observed_unobserve (x el : node) (p : Page) :
  x ∈ observed (unobserve el p) ↔ x ∈ observed p ∧ x ≠ el.
Proof.
  unfold observed, unobserve.
  destruct (observer p) as [o|] eqn:Ho; simpl; rewrite ?Ho; set_solver.
Qed.

Lemma elem_of_observed_observe (x el : node) (p : Page) :
  x ∈ observed (observe el p) ↔
  x ∈ observed p ∨ (x = el ∧ is_Some (observer p)).
Proof.
  unfold observed, observe. destruct (observer p) as [o|] eqn:Ho; simpl.
  - rewrite elem_of_union, elem_of_singleton. naive_solver.
  - rewrite Ho. split; [by left|].
    intros [?|[_ Hs]]; [done|]. by apply is_Some_None in Hs.
Qed.

Section Reveal.
Context `{JSHost}.

Lemma onEntry_skip (entry : IntersectionObserverEntry) (i : nat) (p : Page) :
  isIntersecting entry = false → onEntry entry i p = p.
Proof. intros Hno. unfold onEntry. by rewrite Hno. Qed.

Lemma onEntry_document (entry : IntersectionObserverEntry) (i : nat) (p : Page) :
  document (onEntry entry i p) = document p.
Proof.
  unfold onEntry. destruct (isIntersecting entry); simpl; [|done].
  destruct (revealOnce _); [|done].
  unfold unobserve. simpl. by destruct (observer p).
Qed.

Lemma onEntry_flags (entry : IntersectionObserverEntry) (i : nat) (p : Page) :
  flags (onEntry entry i p) = flags p.
Proof.
  unfold onEntry. destruct (isIntersecting entry); simpl; [|done].
  destruct (revealOnce _); [|done].
  unfold unobserve. simpl. by destruct (observer p).
Qed.

Lemma onEntry_frames (entry : IntersectionObserverEntry) (i : nat) (p : Page) :
  animationFrames (onEntry entry i p)
  = (animationFrames p
     ++ if isIntersecting entry
        then [AnimateInFrame (target entry) (revealDelay p (target entry))
                             (num_of_Z 800) defaultEasing]
        else [])%list.
Proof.
  unfold onEntry. destruct (isIntersecting entry); simpl;
    [|by rewrite app_nil_r].
  destruct (revealOnce _); [|done].
  unfold unobserve. simpl. by destruct (observer p).
Qed.

Lemma onEntry_timeouts (entry : IntersectionObserverEntry) (i : nat) (p : Page) :
  timeouts (onEntry entry i p)
  = (timeouts p
     ++ if isIntersecting entry
        then [(ClearTimeout (target entry), clearWindow)]
        else [])%list.
Proof.
  unfold onEntry. destruct (isIntersecting entry); simpl;
    [|by rewrite app_nil_r].
  destruct (revealOnce _); [|done].
  unfold unobserve. simpl. by destruct (observer p).
Qed.

Lemma onEntry_observed (entry : IntersectionObserverEntry) (i : nat)
  (p : Page) (x : node) :
  x ∈ observed (onEntry entry i p) ↔
  x ∈ observed p
  ∧ ¬ (target entry = x ∧ isIntersecting entry = true
       ∧ revealOnce (nodeAttribute p x "data-reveal-once") = true).
Proof.
  unfold onEntry. destruct (isIntersecting entry); simpl; [|naive_solver].
  destruct (revealOnce (nodeAttribute _ (target entry) _)) eqn:Honce.
  - rewrite elem_of_observed_unobserve.
    change (observed (clearTransition _ _)) with (observed p).
    split.
    + intros [Hx Hne]. split; [done|]. by intros (Heq & _).
    + intros [Hx Hn]. split; [done|]. intros ->. apply Hn.
      change (nodeAttribute (animateIn _ _ _ _ p)) with (nodeAttribute p) in Honce.
      done.
  - change (observed (clearTransition _ _)) with (observed p).
    change (nodeAttribute (animateIn _ _ _ _ p)) with (nodeAttribute p) in Honce.
    split; [|naive_solver].
    intros Hx. split; [done|]. intros (<- & _ & Ht). congruence.
Qed.

Lemma onEntry_nodeAttribute (entry : IntersectionObserverEntry) (i : nat)
  (p : Page) (el : node) (name : string) :
  nodeAttribute (onEntry entry i p) el name = nodeAttribute p el name.
Proof. unfold nodeAttribute. by rewrite onEntry_document. Qed.

Lemma forEachFrom_onEntry_document (entries : list IntersectionObserverEntry)
  (i : nat) (p : Page) :
  document (forEachFrom onEntry i entries p) = document p.
Proof. apply (forEachFrom_preserves document), onEntry_document. Qed.

Lemma forEachFrom_onEntry_observed (entries : list IntersectionObserverEntry)
  (i : nat) (p : Page) (x : node) :
  x ∈ observed (forEachFrom onEntry i entries p) ↔
  x ∈ observed p
  ∧ ¬ ∃ e, e ∈ entries ∧ target e = x ∧ isIntersecting e = true
           ∧ revealOnce (nodeAttribute p x "data-reveal-once") = true.
Proof.
  revert i p. induction entries as [|e entries IH]; intros i p; simpl.
  - split; [|naive_solver]. intros Hx. split; [done|].
    intros (e & He & _). by apply elem_of_nil in He.
  - rewrite IH, onEntry_observed, onEntry_nodeAttribute. split.
    + intros [[Hx Hn1] Hn2]. split; [done|].
      intros (e' & [->|He']%elem_of_cons & Ht & Hi & Ho); [naive_solver|].
      apply Hn2. by exists e'.
    + intros [Hx Hn]. repeat split; [done| |].
      * intros (Ht & Hi & Ho). apply Hn. exists e. rewrite elem_of_cons. auto.
      * intros (e' & He' & Ht & Hi & Ho). apply Hn. exists e'.
        rewrite elem_of_cons. auto.
Qed.

Lemma forEachFrom_onEntry_framesFor (entries : list IntersectionObserverEntry)
  (i : nat) (p : Page) (el : node) :
  (∀ e, e ∈ entries → target e = el → isIntersecting e = false) →
  framesFor el (forEachFrom onEntry i entries p) = framesFor el p
  ∧ timeoutsFor el (forEachFrom onEntry i entries p) = timeoutsFor el p.
Proof.
  revert i p. induction entries as [|e entries IH]; intros i p Hel; [done|].
  simpl. destruct (IH (S i) (onEntry e i p)) as [-> ->].
  { intros e' He'. apply Hel. by right. }
  unfold framesFor, timeoutsFor.
  rewrite onEntry_frames, onEntry_timeouts, !filter_app.
  destruct (isIntersecting e) eqn:Hi; [|by rewrite !filter_nil, !app_nil_r].
  assert (Hne : target e ≠ el).
  { intros Heq. specialize (Hel e (list_elem_of_here _ _) Heq). congruence. }
  split.
  - rewrite filter_cons_False, filter_nil, app_nil_r; [done|].
    simpl. congruence.
  - rewrite filter_cons_False, filter_nil, app_nil_r; [done|].
    simpl. congruence.
Qed.

(** C10: an entry that is not intersecting is skipped by the callback:
    handling it returns the page as it was, so no style is written,
    nothing is scheduled and the registration stays; and a batch in
    which every entry of an element is non-intersecting leaves the
    document, the work pending for that element and its registration
    unchanged. *)
Theorem onIntersection_not_intersecting :
  (∀ entry i p, isIntersecting entry = false → onEntry entry i p = p)
  ∧ (∀ entries p el,
       (∀ e, e ∈ entries → target e = el → isIntersecting e = false) →
       document (onIntersection entries p) = document p
       ∧ framesFor el (onIntersection entries p) = framesFor el p
       ∧ timeoutsFor el (onIntersection entries p) = timeoutsFor el p
       ∧ (el ∈ observed (onIntersection entries p) ↔ el ∈ observed p)).
Proof.
  split; [apply onEntry_skip|].
  intros entries p el Hel. unfold onIntersection, forEach.
  split; [apply forEachFrom_onEntry_document|].
  destruct (forEachFrom_onEntry_framesFor entries 0 p el Hel) as [-> ->].
  repeat split; rewrite forEachFrom_onEntry_observed; [naive_solver|].
  intros Hx. split; [done|].
  intros (e & He & Ht & Hi & _). specialize (Hel e He Ht). congruence.
Qed.

Lemma setupReveals_reduced (p : Page) :
  prefersReduced p = true →
  setupReveals p = showImmediately (querySelectorAll ["data-reveal"] p) p.
Proof.
  intros Hpr. unfold setupReveals. rewrite Hpr.
  case_decide as Hlen; [|done].
  by apply nil_length_inv in Hlen as ->.
Qed.

Lemma setupReveals_animated (p : Page) :
  prefersReduced p = false →
  querySelectorAll ["data-reveal"] p ≠ [] →
  setupReveals p
  = forEach observeBody (querySelectorAll ["data-reveal"] p)
      (setObserver
         (Some (mkObserver "0px 0px -10% 0px"
                  (getDynamicThreshold (querySelectorAll ["data-reveal"] p)) ∅))
         (forEach revealInitBody (querySelectorAll ["data-reveal"] p) p)).
Proof.
  intros Hpr Hne. unfold setupReveals. rewrite Hpr.
  case_decide as Hlen; [|done].
  by apply nil_length_inv in Hlen.
Qed.

Lemma setupReveals_none (p : Page) :
  querySelectorAll ["data-reveal"] p = [] → setupReveals p = p.
Proof. intros Hnil. unfold setupReveals. by rewrite Hnil. Qed.

Lemma observeBody_rest (el : node) (i : nat) (p : Page) :
  document (observeBody el i p) = document p
  ∧ timeouts (observeBody el i p) = timeouts p
  ∧ animationFrames (observeBody el i p) = animationFrames p
  ∧ flags (observeBody el i p) = flags p.
Proof. unfold observeBody, observe. by destruct (observer p). Qed.

Lemma forEachFrom_observeBody_observer (nodes : list node) (i : nat)
  (p : Page) (o : IntersectionObserver) :
  observer p = Some o →
  ∃ o', observer (forEachFrom observeBody i nodes p) = Some o'
        ∧ rootMargin o' = rootMargin o
        ∧ threshold o' = threshold o
        ∧ ∀ x, x ∈ targets o' ↔ x ∈ nodes ∨ x ∈ targets o.
Proof.
  revert i p o. induction nodes as [|el nodes IH]; intros i p o Ho; simpl.
  - exists o. repeat split; auto. set_solver.
  - destruct (IH (S i) (observeBody el i p)
                (mkObserver (rootMargin o) (threshold o) ({[el]} ∪ targets o)))
      as (o' & Ho' & Hm & Ht & Hx).
    { unfold observeBody, observe. by rewrite Ho. }
    exists o'. repeat split; auto.
    + intros [?|[->%elem_of_singleton|?]%elem_of_union]%Hx; set_solver.
    + intros Hin. apply Hx. simpl. set_solver.
Qed.

Lemma revealInitBody_document (el : node) (i : nat) (p : Page) :
  document (revealInitBody el i p)
  = alter (with_style (hiddenStyle (str_or (nodeAttribute p el "data-reveal-from") "up")))
          el (document p).
Proof. exact (setInitialState_document el _ p). Qed.

Lemma forEachFrom_revealInitBody_document (nodes : list node) (i : nat)
  (p : Page) :
  document (forEachFrom revealInitBody i nodes p)
  = restyle (λ el, hiddenStyle (str_or (nodeAttribute p el "data-reveal-from") "up"))
            nodes (document p).
Proof.
  apply (forEachFrom_restyle revealInitBody
           (λ p el, hiddenStyle (str_or (nodeAttribute p el "data-reveal-from") "up"))).
  - intros el k q. apply revealInitBody_document.
  - intros q q' el s Heq. by rewrite (nodeAttribute_attrsOf q q' el _ Heq).
Qed.

Lemma setupReveals_document (p : Page) :
  prefersReduced p = false →
  document (setupReveals p)
  = restyle (λ el, hiddenStyle (str_or (nodeAttribute p el "data-reveal-from") "up"))
            (querySelectorAll ["data-reveal"] p) (document p).
Proof.
  intros Hpr.
  destruct (querySelectorAll ["data-reveal"] p) as [|x l] eqn:Hq.
  - by rewrite setupReveals_none.
  - rewrite setupReveals_animated, Hq by (done || by rewrite Hq).
    unfold forEach.
    rewrite (forEachFrom_preserves document) by apply observeBody_rest.
    apply (forEachFrom_revealInitBody_document (x :: l) 0 p).
Qed.

Lemma setupReveals_observer (p : Page) :
  prefersReduced p = false →
  querySelectorAll ["data-reveal"] p ≠ [] →
  ∃ o, observer (setupReveals p) = Some o
       ∧ rootMargin o = "0px 0px -10% 0px"
       ∧ threshold o = getDynamicThreshold (querySelectorAll ["data-reveal"] p)
       ∧ ∀ x, x ∈ targets o ↔ x ∈ querySelectorAll ["data-reveal"] p.
Proof.
  intros Hpr Hne. rewrite setupReveals_animated by done.
  destruct (forEachFrom_observeBody_observer
              (querySelectorAll ["data-reveal"] p) 0
              (setObserver
                 (Some (mkObserver "0px 0px -10% 0px"
                          (getDynamicThreshold (querySelectorAll ["data-reveal"] p)) ∅))
                 (forEach revealInitBody (querySelectorAll ["data-reveal"] p) p))
              _ eq_refl) as (o & Ho & Hm & Ht & Hx).
  exists o. repeat split; auto.
  - intros [?|?]%Hx; [done|set_solver].
  - intros ?. apply Hx. by left.
Qed.

(** C9: the once-flag is true exactly when the attribute is absent or is
    the string ['true'], compared exactly; ['True'], ['TRUE'], ['1'] and
    the empty string give false, whereas the direction keyword is
    lower-cased before it is compared. *)
Theorem revealOnce_exact (onceAttr : option string) (px : number) :
  (revealOnce onceAttr = true ↔ onceAttr = None ∨ onceAttr = Some "true")
  ∧ revealOnce (Some "True") = false
  ∧ revealOnce (Some "TRUE") = false
  ∧ revealOnce (Some "1") = false
  ∧ revealOnce (Some "") = false
  ∧ translateFrom (Some "LEFT") px = translateFrom (Some "left") px
  ∧ translateFrom (Some "Left") px = translateFrom (Some "left") px.
Proof.
  split; [|done].
  unfold revealOnce. destruct onceAttr as [s|]; [|naive_solver].
  rewrite bool_decide_eq_true. naive_solver.
Qed.

(** C3: the threshold depends on the number of reveal elements only:
    0.05 above 40, 0.10 above 20 and up to 40, 0.15 otherwise; it is the
    threshold of the observer that [setupReveals] creates. *)
Theorem getDynamicThreshold_by_length :
  (∀ nodes nodes' : list node,
     length nodes = length nodes' →
     getDynamicThreshold nodes = getDynamicThreshold nodes')
  ∧ (∀ nodes : list node,
       (40 < length nodes)%nat → getDynamicThreshold nodes = Finite (5 # 100))
  ∧ (∀ nodes : list node,
       (20 < length nodes ≤ 40)%nat → getDynamicThreshold nodes = Finite (1 # 10))
  ∧ (∀ nodes : list node,
       (length nodes ≤ 20)%nat → getDynamicThreshold nodes = Finite (15 # 100))
  ∧ (∀ nodes : list node,
       length nodes = 45%nat → getDynamicThreshold nodes = Finite (5 # 100))
  ∧ (∀ nodes : list node,
       length nodes = 25%nat → getDynamicThreshold nodes = Finite (1 # 10))
  ∧ (∀ nodes : list node,
       length nodes = 10%nat → getDynamicThreshold nodes = Finite (15 # 100))
  ∧ (∀ p, prefersReduced p = false →
          querySelectorAll ["data-reveal"] p ≠ [] →
          threshold <$> observer (setupReveals p)
          = Some (getDynamicThreshold (querySelectorAll ["data-reveal"] p))).
Proof.
  assert (Hobs : ∀ p, prefersReduced p = false →
            querySelectorAll ["data-reveal"] p ≠ [] →
            threshold <$> observer (setupReveals p)
            = Some (getDynamicThreshold (querySelectorAll ["data-reveal"] p))).
  { intros p Hpr Hne.
    destruct (setupReveals_observer p Hpr Hne) as (o & -> & _ & <- & _). done. }
  unfold getDynamicThreshold in *. repeat split; [..|done].
  - by intros nodes nodes' ->.
  - intros nodes Hn. by rewrite (proj2 (Nat.ltb_lt _ _) Hn).
  - intros nodes [Hlo Hhi].
    rewrite (proj2 (Nat.ltb_ge _ _) Hhi). by rewrite (proj2 (Nat.ltb_lt _ _) Hlo).
  - intros nodes Hn.
    rewrite (proj2 (Nat.ltb_ge 40 _)) by lia. by rewrite (proj2 (Nat.ltb_ge _ _) Hn).
  - by intros nodes ->.
  - by intros nodes ->.
  - by intros nodes ->.
Qed.

End Reveal.

(** ** Directions *)

Lemma matchesSelector_single (name : string) (e : Element) :
  matchesSelector [name] e = true ↔ is_Some (getAttribute e name).
Proof.
  unfold matchesSelector, hasAttribute, getAttribute. simpl.
  rewrite orb_false_r. apply bool_decide_eq_true.
Qed.

Lemma nodeAttribute_lookup (p : Page) (el : node) (e : Element) (name : string) :
  document p !! el = Some e → nodeAttribute p el name = getAttribute e name.
Proof. intros He. unfold nodeAttribute. by rewrite He. Qed.

Lemma toLowerCase_empty (s : string) : toLowerCase s = "" → s = "".
Proof. by destruct s. Qed.

Section Directions.
Context `{JSHost}.

Lemma translateFrom_lower (a b : string) (px : number) :
  toLowerCase a = toLowerCase b →
  translateFrom (Some a) px = translateFrom (Some b) px.
Proof.
  intros Heq.
  destruct (decide (a = "")) as [->|Ha].
  { symmetry in Heq. by apply toLowerCase_empty in Heq as ->. }
  destruct (decide (b = "")) as [->|Hb].
  { by apply toLowerCase_empty in Heq. }
  unfold translateFrom, str_or.
  rewrite (decide_False (P := a = "")), (decide_False (P := b = "")) by done.
  by rewrite Heq.
Qed.

(** C4: the direction is compared after lower-casing and every value
    has a result: [down], [left], [right] and [up] give a translation by
    [px] along their axis, [fade] the neutral transform, and anything
    else, the empty string or no value gives the result of [up]; an
    intro or reveal element without direction attribute starts from the
    [up] offset of 10. *)
Theorem translateFrom_directions (px : number) :
  (∀ from, toLowerCase (str_or from "up") = "down" →
     translateFrom from px = "translateY(-" +:+ NumberToString px +:+ "px)")
  ∧ (∀ from, toLowerCase (str_or from "up") = "left" →
       translateFrom from px = "translateX(" +:+ NumberToString px +:+ "px)")
  ∧ (∀ from, toLowerCase (str_or from "up") = "right" →
       translateFrom from px = "translateX(-" +:+ NumberToString px +:+ "px)")
  ∧ (∀ from, toLowerCase (str_or from "up") = "fade" →
       translateFrom from px = "translateZ(0)")
  ∧ (∀ from, toLowerCase (str_or from "up") = "up" →
       translateFrom from px = "translateY(" +:+ NumberToString px +:+ "px)")
  ∧ (∀ from,
       toLowerCase (str_or from "up") ≠ "down" →
       toLowerCase (str_or from "up") ≠ "left" →
       toLowerCase (str_or from "up") ≠ "right" →
       toLowerCase (str_or from "up") ≠ "fade" →
       translateFrom from px = translateFrom (Some "up") px)
  ∧ translateFrom None px = translateFrom (Some "up") px
  ∧ translateFrom (Some "") px = translateFrom (Some "up") px
  ∧ (∀ a b, toLowerCase a = toLowerCase b →
       translateFrom (Some a) px = translateFrom (Some b) px)
  ∧ (∀ p el e,
       prefersReduced p = false →
       document p !! el = Some e →
       is_Some (getAttribute e "data-intro") →
       getAttribute e "data-intro-from" = None →
       nodeStyle (runIntro p) el
       = Some (mkStyle "0" "opacity, transform"
                 ("translateY(" +:+ NumberToString (num_of_Z 10) +:+ "px)")
                 (transition (style e))))
  ∧ (∀ p el e,
       prefersReduced p = false →
       document p !! el = Some e →
       is_Some (getAttribute e "data-reveal") →
       getAttribute e "data-reveal-from" = None →
       nodeStyle (setupReveals p) el
       = Some (mkStyle "0" "opacity, transform"
                 ("translateY(" +:+ NumberToString (num_of_Z 10) +:+ "px)")
                 (transition (style e)))).
Proof.
  repeat apply conj; try done.
  - intros from Hd. unfold translateFrom. by rewrite Hd.
  - intros from Hd. unfold translateFrom. by rewrite Hd.
  - intros from Hd. unfold translateFrom. by rewrite Hd.
  - intros from Hd. unfold translateFrom. by rewrite Hd.
  - intros from Hd. unfold translateFrom. by rewrite Hd.
  - intros from H1 H2 H3 H4. unfold translateFrom.
    by rewrite !decide_False by done.
  - intros a b. apply translateFrom_lower.
  - intros p el e Hpr He Hflag Hfrom. unfold nodeStyle.
    rewrite runIntro_document by done.
    rewrite restyle_lookup_in.
    + rewrite He, (nodeAttribute_lookup p el e) by done. by rewrite Hfrom.
    + apply introOrder_NoDup.
    + rewrite introOrder_perm. apply elem_of_querySelectorAll.
      exists e. by rewrite matchesSelector_single.
  - intros p el e Hpr He Hflag Hfrom. unfold nodeStyle.
    rewrite setupReveals_document by done.
    rewrite restyle_lookup_in.
    + rewrite He, (nodeAttribute_lookup p el e) by done. by rewrite Hfrom.
    + apply querySelectorAll_NoDup.
    + apply elem_of_querySelectorAll.
      exists e. by rewrite matchesSelector_single.
Qed.

End Directions.

(** ** Reduced motion *)

Lemma matchesSelector_flagged (names : list string) (e : Element) :
  names ⊆ ["data-intro"; "data-reveal"] →
  matchesSelector names e = true → flagged e.
Proof.
  intros Hsub Hm. unfold matchesSelector in Hm.
  apply existsb_exists in Hm as (name & Hin%list_elem_of_In & Hhas).
  unfold hasAttribute in Hhas. apply bool_decide_eq_true in Hhas.
  apply Hsub in Hin. unfold flagged, getAttribute.
  repeat (apply elem_of_cons in Hin as [->|Hin]; [by auto|]).
  by apply elem_of_nil in Hin.
Qed.

Lemma flagged_matchesSelector (e : Element) :
  flagged e → matchesSelector ["data-intro"; "data-reveal"] e = true.
Proof.
  unfold flagged, matchesSelector, hasAttribute, getAttribute. simpl.
  intros [Hf|Hf]; rewrite (bool_decide_eq_true_2 _ Hf); by rewrite ?orb_true_r.
Qed.

Lemma flagged_attrs (e e' : Element) :
  attributes e = attributes e' → flagged e → flagged e'.
Proof. unfold flagged, getAttribute. by intros ->. Qed.

Section Reduced.
Context `{JSHost}.

Lemma showImmediately_lookup (nodes : list node) (p : Page) (el : node) :
  NoDup nodes →
  document (showImmediately nodes p) !! el
  = if decide (el ∈ nodes)
    then with_style (λ _, shownStyle) <$> document p !! el
    else document p !! el.
Proof.
  intros Hnd. rewrite showImmediately_document. case_decide.
  - by apply restyle_lookup_in.
  - by apply restyle_lookup_notin.
Qed.

Lemma showImmediately_flags (nodes : list node) (p : Page) :
  flags (showImmediately nodes p) = flags p.
Proof. by apply (forEachFrom_preserves flags). Qed.

(** What [showImmediately] does to the nodes matched by a selector. *)
Lemma showImmediately_selected (names : list string) (p : Page)
  (el : node) (e : Element) :
  document p !! el = Some e →
  document (showImmediately (querySelectorAll names p) p) !! el
  = Some (if matchesSelector names e
          then mkElement (attributes e) shownStyle else e).
Proof.
  intros He. rewrite showImmediately_lookup by apply querySelectorAll_NoDup.
  destruct (matchesSelector names e) eqn:Hm.
  - rewrite decide_True, He; [done|].
    apply elem_of_querySelectorAll. by exists e.
  - rewrite decide_False; [done|].
    intros (e' & He' & Hm')%elem_of_querySelectorAll. congruence.
Qed.

Lemma showImmediately_onlyShown (names : list string) (doc : list Element)
  (p : Page) :
  names ⊆ ["data-intro"; "data-reveal"] →
  onlyShown doc (document p) →
  onlyShown doc (document (showImmediately (querySelectorAll names p) p)).
Proof.
  intros Hsub [Hlen Hdoc]. split.
  - rewrite <- Hlen. rewrite showImmediately_document.
    transitivity (length (attributes <$> restyle (λ _ _, shownStyle)
                            (querySelectorAll names p) (document p))).
    + by rewrite length_fmap.
    + by rewrite restyle_attrs, length_fmap.
  - intros el e' He'.
    destruct (document p !! el) as [e|] eqn:He.
    + rewrite (showImmediately_selected names p el e He) in He'.
      destruct (Hdoc el e He) as (e0 & He0 & Hattr & Hcase).
      exists e0. split; [done|].
      destruct (matchesSelector names e) eqn:Hm; simplify_eq/=.
      * split; [done|]. right. split; [|done].
        apply (flagged_attrs e); [done|].
        by apply (matchesSelector_flagged names).
      * done.
    + rewrite showImmediately_lookup in He' by apply querySelectorAll_NoDup.
      rewrite He in He'. by case_decide.
Qed.

Lemma showImmediately_allShown_selected (names : list string) (p : Page)
  (el : node) (e : Element) :
  document (showImmediately (querySelectorAll names p) p) !! el = Some e →
  (matchesSelector names e = true → style e = shownStyle)
  ∧ ∃ e0, document p !! el = Some e0 ∧ attributes e = attributes e0
          ∧ (style e0 = shownStyle → style e = shownStyle).
Proof.
  intros He'.
  destruct (document p !! el) as [e0|] eqn:He0.
  - rewrite (showImmediately_selected names p el e0 He0) in He'.
    destruct (matchesSelector names e0) eqn:Hm; simplify_eq/=.
    + split; [done|]. by exists e0.
    + split; [congruence|]. by exists e.
  - rewrite showImmediately_lookup in He' by apply querySelectorAll_NoDup.
    rewrite He0 in He'. by case_decide.
Qed.

End Reduced.

(** ** What the callbacks leave alone *)

Section Frames.
Context `{JSHost}.

Lemma forEach_introBody_flags (nodes : list node) (p : Page) :
  flags (forEach introBody nodes p) = flags p.
Proof. by apply (forEachFrom_preserves flags). Qed.

Lemma runIntro_flags (p : Page) : flags (runIntro p) = flags p.
Proof.
  destruct (prefersReduced p) eqn:Hpr.
  - rewrite runIntro_reduced by done. apply showImmediately_flags.
  - rewrite runIntro_animated by done. apply forEach_introBody_flags.
Qed.

Lemma setupReveals_flags (p : Page) : flags (setupReveals p) = flags p.
Proof.
  destruct (prefersReduced p) eqn:Hpr.
  - rewrite setupReveals_reduced by done. apply showImmediately_flags.
  - destruct (decide (querySelectorAll ["data-reveal"] p = [])) as [Hnil|Hne].
    + by rewrite setupReveals_none.
    + rewrite setupReveals_animated by done. unfold forEach.
      rewrite (forEachFrom_preserves flags) by apply observeBody_rest.
      by apply (forEachFrom_preserves flags).
Qed.

Lemma runCallback_flags (cb : Callback) (p : Page) :
  flags (runCallback cb p) = flags p.
Proof.
  destruct cb; simpl; try done.
  by rewrite setupReveals_flags, runIntro_flags.
Qed.

Lemma onIntersection_flags (entries : list IntersectionObserverEntry) (p : Page) :
  flags (onIntersection entries p) = flags p.
Proof. apply (forEachFrom_preserves flags), onEntry_flags. Qed.

Lemma flags_domContentLoaded (p p' : Page) :
  flags p' = flags p → domContentLoaded p' = domContentLoaded p.
Proof. unfold flags. congruence. Qed.

Lemma flags_prefersReduced (p p' : Page) :
  flags p' = flags p → prefersReduced p' = prefersReduced p.
Proof. unfold flags. congruence. Qed.

(** A callback other than the initialisation frame never schedules the
    initialisation frame and never touches the observer. *)
Lemma runCallback_settled (cb : Callback) (p : Page) :
  cb ≠ InitFrame → settled p →
  settled (runCallback cb p) ∧ observer (runCallback cb p) = observer p.
Proof.
  intros Hcb (Hdcl & Hfr & Hto).
  destruct cb as [|el delay|el delay duration easing|el]; [done|..];
    (split; [|done]); (split; [by rewrite (flags_domContentLoaded p)|]);
    simpl; [|done..].
  split.
  - rewrite not_elem_of_app, not_elem_of_cons. split; [done|].
    split; [done|apply not_elem_of_nil].
  - rewrite fmap_app, not_elem_of_app. split; [done|]. simpl.
    rewrite not_elem_of_cons. split; [done|apply not_elem_of_nil].
Qed.

Lemma foldl_runCallback_settled (cbs : list Callback) (p : Page) :
  InitFrame ∉ cbs → settled p →
  settled (foldl (λ p cb, runCallback cb p) p cbs)
  ∧ observer (foldl (λ p cb, runCallback cb p) p cbs) = observer p.
Proof.
  revert p. induction cbs as [|cb cbs IH]; intros p Hcbs Hp; [done|].
  apply not_elem_of_cons in Hcbs as [Hcb Hcbs]. simpl.
  destruct (runCallback_settled cb p) as [Hs Ho]; [done..|].
  destruct (IH (runCallback cb p)) as [Hs' Ho']; [done..|].
  split; [done|congruence].
Qed.

Lemma forEachFrom_onEntry_noInit (entries : list IntersectionObserverEntry)
  (i : nat) (p : Page) :
  InitFrame ∉ animationFrames p → InitFrame ∉ (timeouts p).*1 →
  (InitFrame ∉ animationFrames (forEachFrom onEntry i entries p))
  ∧ (InitFrame ∉ (timeouts (forEachFrom onEntry i entries p)).*1).
Proof.
  revert i p. induction entries as [|e entries IH]; intros i p Hfr Hto; [done|].
  simpl. apply IH.
  - rewrite onEntry_frames, not_elem_of_app. split; [done|].
    destruct (isIntersecting e); [|apply not_elem_of_nil].
    rewrite not_elem_of_cons. split; [done|apply not_elem_of_nil].
  - rewrite onEntry_timeouts, fmap_app, not_elem_of_app. split; [done|].
    destruct (isIntersecting e); [|apply not_elem_of_nil]. simpl.
    rewrite not_elem_of_cons. split; [done|apply not_elem_of_nil].
Qed.

(** Once initialisation is over it stays over, and the set of observed
    elements can only shrink. *)
Lemma settled_step (ev : Event) (p p' : Page) :
  settled p → step ev p = Some p' →
  settled p' ∧ observed p' ⊆ observed p.
Proof.
  intros Hp Hstep. pose proof Hp as (Hdcl & Hfr & Hto).
  destruct ev as [| |k|entries|]; simpl in Hstep.
  - by rewrite Hdcl in Hstep.
  - injection Hstep as <-.
    destruct (foldl_runCallback_settled (animationFrames p)
                (setAnimationFrames [] p)) as [Hs Ho]; [done| |].
    { split; [done|]. split; [apply not_elem_of_nil|done]. }
    split; [done|]. unfold observed. by rewrite Ho.
  - destruct (timeouts p !! k) as [[cb ms]|] eqn:Hk; [|done].
    injection Hstep as <-.
    destruct (runCallback_settled cb (setTimeouts (delete k (timeouts p)) p))
      as [Hs Ho].
    + intros ->. apply Hto. apply list_elem_of_fmap.
      exists (InitFrame, ms). split; [done|]. by eapply list_elem_of_lookup_2.
    + split; [done|]. split; [done|]. simpl. intros Hin. apply Hto.
      apply list_elem_of_fmap in Hin as (t & -> & Hin).
      apply list_elem_of_fmap. exists t. split; [done|].
      by apply list_elem_of_delete_inv in Hin.
    + split; [done|]. unfold observed. by rewrite Ho.
  - destruct (observer p) as [o|] eqn:Ho; [|done].
    destruct (forallb _ entries); [|done]. injection Hstep as <-.
    split.
    + split; [by rewrite (flags_domContentLoaded p) by apply onIntersection_flags|].
      by apply forEachFrom_onEntry_noInit.
    + intros x Hx. by apply forEachFrom_onEntry_observed in Hx as [Hx _].
  - injection Hstep as <-. destruct (onMotionChange p); [|done].
    unfold onMotionChangeBody.
    destruct (showImmediately_rest
                (querySelectorAll ["data-intro"; "data-reveal"] p) p)
      as (Ht & Hf & Ho & _).
    split.
    + split; [by rewrite (flags_domContentLoaded p) by apply showImmediately_flags|].
      by rewrite Ht, Hf.
    + unfold observed. by rewrite Ho.
Qed.

Lemma settled_run (evs : list Event) (p p' : Page) :
  settled p → run evs p = Some p' →
  settled p' ∧ observed p' ⊆ observed p.
Proof.
  revert p. induction evs as [|ev evs IH]; intros p Hp Hrun; simpl in Hrun.
  - by injection Hrun as <-.
  - destruct (step ev p) as [q|] eqn:Hstep; [|done].
    destruct (settled_step ev p q Hp Hstep) as [Hq Hsub].
    destruct (IH q Hq Hrun) as [Hp' Hsub'].
    split; [done|]. set_solver.
Qed.

End Frames.

(** ** Pages reachable from the script *)

Lemma main_page (w : Window) (doc : list Element) (p : Page) :
  main w doc = Normal p →
  ∃ mq, matchMedia w = Some mq
        ∧ p = mkPage (matches mq) doc [] [] None true
                     (bool_decide (addEventListener mq = IsFunction)) false.
Proof.
  unfold main, callMatchMedia. destruct (matchMedia w) as [mq|]; [|done].
  simpl. intros Hp. exists mq. split; [done|].
  unfold attachChange in Hp. destruct (addEventListener mq); by simplify_eq/=.
Qed.

Section Reachable.
Context `{JSHost}.

Lemma runIntro_queues (p : Page) :
  animationFrames (runIntro p) = animationFrames p
  ∧ observer (runIntro p) = observer p
  ∧ (InitFrame ∉ (timeouts p).*1 → InitFrame ∉ (timeouts (runIntro p)).*1).
Proof.
  destruct (prefersReduced p) eqn:Hpr.
  - rewrite runIntro_reduced by done.
    destruct (showImmediately_rest (querySelectorAll ["data-intro"] p) p)
      as (-> & -> & -> & _). done.
  - rewrite runIntro_timeouts by done. rewrite runIntro_animated by done.
    unfold forEach. repeat split.
    + by apply (forEachFrom_preserves animationFrames).
    + by apply (forEachFrom_preserves observer).
    + intros Hto. rewrite fmap_app, not_elem_of_app. split; [done|].
      intros (t & Ht & Hin)%list_elem_of_fmap.
      apply list_elem_of_lookup in Hin as [i Hi].
      rewrite list_lookup_imap in Hi.
      destruct (introOrder p !! i); by simplify_eq/=.
Qed.

Lemma setupReveals_queues (p : Page) :
  animationFrames (setupReveals p) = animationFrames p
  ∧ timeouts (setupReveals p) = timeouts p.
Proof.
  destruct (prefersReduced p) eqn:Hpr.
  - rewrite setupReveals_reduced by done.
    destruct (showImmediately_rest (querySelectorAll ["data-reveal"] p) p)
      as (-> & -> & _). done.
  - destruct (decide (querySelectorAll ["data-reveal"] p = [])) as [Hnil|Hne].
    + by rewrite setupReveals_none.
    + rewrite setupReveals_animated by done. unfold forEach. split.
      * rewrite (forEachFrom_preserves animationFrames) by apply observeBody_rest.
        by apply (forEachFrom_preserves animationFrames).
      * rewrite (forEachFrom_preserves timeouts) by apply observeBody_rest.
        by apply (forEachFrom_preserves timeouts).
Qed.

Lemma initFrame_settles (p : Page) :
  domContentLoaded p = true → animationFrames p = [] → timeouts p = [] →
  settled (runCallback InitFrame p).
Proof.
  intros Hdcl Hfr Hto. simpl.
  destruct (runIntro_queues p) as (Hf1 & _ & Ht1).
  destruct (setupReveals_queues (runIntro p)) as (Hf2 & Ht2).
  split; [|split].
  - rewrite (flags_domContentLoaded p); [done|].
    by rewrite setupReveals_flags, runIntro_flags.
  - rewrite Hf2, Hf1, Hfr. apply not_elem_of_nil.
  - rewrite Ht2. apply Ht1. rewrite Hto. apply not_elem_of_nil.
Qed.

Lemma phased_step (ev : Event) (p p' : Page) :
  phased p → step ev p = Some p' → phased p'.
Proof.
  intros [(Hdcl & Hfr & Hto & Ho)|[(Hdcl & Hfr & Hto & Ho)|Hs]] Hstep;
    [| |right; right; by eapply settled_step].
  - (* before DOMContentLoaded *)
    destruct ev as [| |k|entries|]; simpl in Hstep.
    + rewrite Hdcl in Hstep. injection Hstep as <-.
      destruct (onDOMContentLoaded p); simpl.
      * right. left. simpl. by rewrite Hfr.
      * right. right. split; [done|]. simpl. rewrite Hfr, Hto.
        split; apply not_elem_of_nil.
    + rewrite Hfr in Hstep. injection Hstep as <-. by left.
    + by rewrite Hto in Hstep.
    + by rewrite Ho in Hstep.
    + injection Hstep as <-. left. destruct (onMotionChange p); [|done].
      unfold onMotionChangeBody.
      destruct (showImmediately_rest
                  (querySelectorAll ["data-intro"; "data-reveal"] p) p)
        as (-> & -> & -> & _).
      by rewrite (flags_domContentLoaded p) by apply showImmediately_flags.
  - (* the initialisation frame is pending *)
    destruct ev as [| |k|entries|]; simpl in Hstep.
    + by rewrite Hdcl in Hstep.
    + rewrite Hfr in Hstep. injection Hstep as <-. right. right.
      by apply initFrame_settles.
    + by rewrite Hto in Hstep.
    + by rewrite Ho in Hstep.
    + injection Hstep as <-. right. left. destruct (onMotionChange p); [|done].
      unfold onMotionChangeBody.
      destruct (showImmediately_rest
                  (querySelectorAll ["data-intro"; "data-reveal"] p) p)
        as (-> & -> & -> & _).
      by rewrite (flags_domContentLoaded p) by apply showImmediately_flags.
Qed.

Lemma phased_run (evs : list Event) (p p' : Page) :
  phased p → run evs p = Some p' → phased p'.
Proof.
  revert p. induction evs as [|ev evs IH]; intros p Hp Hrun; simpl in Hrun.
  - by injection Hrun as <-.
  - destruct (step ev p) as [q|] eqn:Hstep; [|done].
    eapply IH; [|done]. by eapply phased_step.
Qed.

Lemma main_phased (w : Window) (doc : list Element) (p : Page) :
  main w doc = Normal p → phased p.
Proof. intros (mq & _ & ->)%main_page. by left. Qed.

Lemma phased_observer_settled (p : Page) :
  phased p → is_Some (observer p) → settled p.
Proof.
  intros [(_ & _ & _ & Ho)|[(_ & _ & _ & Ho)|Hs]] Hsome; [| |done];
    rewrite Ho in Hsome; by apply is_Some_None in Hsome.
Qed.

Lemma step_intersection_observed (entries : list IntersectionObserverEntry)
  (p p' : Page) :
  step (EvIntersection entries) p = Some p' →
  is_Some (observer p)
  ∧ p' = onIntersection entries p
  ∧ ∀ e, e ∈ entries → target e ∈ observed p.
Proof.
  simpl. unfold observed. destruct (observer p) as [o|]; [|done].
  destruct (forallb _ entries) eqn:Hall; [|done].
  intros [= <-]. repeat split; [done|].
  intros e He. rewrite forallb_forall in Hall.
  apply list_elem_of_In in He. apply Hall in He.
  by apply bool_decide_eq_true in He.
Qed.

(** C6: once a reveal element whose once-flag is true has been handled
    as intersecting, it is no longer observed; it is not observed in any
    later state either, so no later intersection batch has an entry for
    it, and no such batch requests an animation or a cleanup for it. *)
Theorem reveal_once_stops_observing (w : Window) (doc : list Element)
  (p0 p p' : Page) (evs : list Event)
  (entries : list IntersectionObserverEntry) (el : node) :
  main w doc = Normal p0 →
  run evs p0 = Some p →
  step (EvIntersection entries) p = Some p' →
  (∃ e, e ∈ entries ∧ target e = el ∧ isIntersecting e = true) →
  revealOnce (nodeAttribute p el "data-reveal-once") = true →
  (el ∉ observed p')
  ∧ ∀ evs' q, run evs' p' = Some q →
      (el ∉ observed q)
      ∧ ∀ entries' q', step (EvIntersection entries') q = Some q' →
          (∀ e', e' ∈ entries' → target e' ≠ el)
          ∧ framesFor el q' = framesFor el q
          ∧ timeoutsFor el q' = timeoutsFor el q.
Proof.
  intros Hmain Hrun Hstep (e & He & Ht & Hi) Honce.
  assert (Hp : settled p).
  { apply phased_observer_settled.
    - eapply phased_run; [|done]. by eapply main_phased.
    - by apply step_intersection_observed in Hstep as [? _]. }
  destruct (settled_step _ _ _ Hp Hstep) as [Hp' _].
  assert (Hel : el ∉ observed p').
  { apply step_intersection_observed in Hstep as (_ & -> & _).
    unfold onIntersection, forEach. rewrite forEachFrom_onEntry_observed.
    intros [_ Hn]. apply Hn. by exists e. }
  split; [done|]. intros evs' q Hrun'.
  destruct (settled_run _ _ _ Hp' Hrun') as [Hq Hsub].
  assert (Helq : el ∉ observed q) by set_solver.
  split; [done|]. intros entries' q' Hstep'.
  apply step_intersection_observed in Hstep' as (_ & -> & Hobs).
  assert (Hne : ∀ e', e' ∈ entries' → target e' ≠ el).
  { intros e' He' Heq. apply Helq. rewrite <- Heq. by apply Hobs. }
  split; [done|].
  apply (forEachFrom_onEntry_framesFor entries' 0 q el).
  intros e' He' Heq. by destruct (Hne e' He').
Qed.

End Reachable.

(** ** Sessions with reduced motion *)

Section ReducedSession.
Context `{JSHost}.

Lemma motionChange_allShown (p : Page) :
  allShown (document (onMotionChangeBody p)).
Proof.
  intros el e He Hfl. unfold onMotionChangeBody in He.
  apply showImmediately_allShown_selected in He as [Hshown _].
  apply Hshown. by apply flagged_matchesSelector.
Qed.

Lemma init_reduced_allShown (p : Page) :
  prefersReduced p = true → allShown (document (setupReveals (runIntro p))).
Proof.
  intros Hpr el e He Hfl.
  rewrite setupReveals_reduced in He
    by by rewrite (flags_prefersReduced p) by apply runIntro_flags.
  apply showImmediately_allShown_selected in He
    as (Hreveal & e0 & He0 & Hattr & Hkeep).
  destruct Hfl as [Hintro|Hrev].
  - apply Hkeep. rewrite runIntro_reduced in He0 by done.
    apply showImmediately_allShown_selected in He0 as [Hshown _].
    apply Hshown. apply matchesSelector_single.
    unfold getAttribute in *. by rewrite <- Hattr.
  - apply Hreveal. by apply matchesSelector_single.
Qed.

Lemma init_reduced_onlyShown (doc : list Element) (p : Page) :
  prefersReduced p = true → onlyShown doc (document p) →
  onlyShown doc (document (setupReveals (runIntro p))).
Proof.
  intros Hpr Hdoc.
  rewrite setupReveals_reduced
    by by rewrite (flags_prefersReduced p) by apply runIntro_flags.
  apply showImmediately_onlyShown; [set_solver|].
  rewrite runIntro_reduced by done.
  apply showImmediately_onlyShown; [set_solver|done].
Qed.

(** Under reduced motion neither subsystem schedules or observes. *)
Lemma reduced_rest (p : Page) :
  prefersReduced p = true →
  timeouts (runIntro p) = timeouts p
  ∧ animationFrames (runIntro p) = animationFrames p
  ∧ observer (runIntro p) = observer p
  ∧ timeouts (setupReveals p) = timeouts p
  ∧ animationFrames (setupReveals p) = animationFrames p
  ∧ observer (setupReveals p) = observer p.
Proof.
  intros Hpr. rewrite runIntro_reduced, setupReveals_reduced by done.
  destruct (showImmediately_rest (querySelectorAll ["data-intro"] p) p)
    as (-> & -> & -> & _).
  destruct (showImmediately_rest (querySelectorAll ["data-reveal"] p) p)
    as (-> & -> & -> & _).
  done.
Qed.

Lemma reducedInv_step (doc : list Element) (ev : Event) (p p' : Page) :
  reducedInv doc p → step ev p = Some p' → reducedInv doc p'.
Proof.
  intros (Hpr & Hl & Hto & Ho & Hdoc & Hph) Hstep.
  destruct ev as [| |k|entries|]; simpl in Hstep.
  - destruct Hph as [[Hdcl Hfr]|[[Hdcl _]|[Hdcl _]]];
      rewrite Hdcl in Hstep; [|done..].
    injection Hstep as <-. simpl. rewrite Hl.
    unfold reducedInv. simpl. split_and!; try done.
    right. left. by rewrite Hfr.
  - injection Hstep as <-.
    destruct Hph as [[Hdcl Hfr]|[[Hdcl Hfr]|(Hdcl & Hfr & Hall)]];
      rewrite Hfr; simpl.
    + unfold reducedInv. simpl. split_and!; try done. by left.
    + set (q := setAnimationFrames [] p).
      destruct (reduced_rest q Hpr) as (Ht1 & Hf1 & Ho1 & _).
      destruct (reduced_rest (runIntro q)) as (_ & _ & _ & Ht2 & Hf2 & Ho2).
      { by rewrite (flags_prefersReduced q) by apply runIntro_flags. }
      assert (Hfl : flags (setupReveals (runIntro q)) = flags p)
        by by rewrite setupReveals_flags, runIntro_flags.
      unfold flags in Hfl. injection Hfl as Hf_pr Hf_l _ Hf_dcl.
      split; [congruence|]. split; [congruence|].
      split; [by rewrite Ht2, Ht1|]. split; [by rewrite Ho2, Ho1|].
      split; [by apply init_reduced_onlyShown|].
      right. right. split; [congruence|]. split; [by rewrite Hf2, Hf1|].
      by apply init_reduced_allShown.
    + unfold reducedInv. simpl. split_and!; try done. by right; right.
  - by rewrite Hto in Hstep.
  - by rewrite Ho in Hstep.
  - injection Hstep as <-. destruct (onMotionChange p); [|done].
    unfold onMotionChangeBody.
    destruct (showImmediately_rest
                (querySelectorAll ["data-intro"; "data-reveal"] p) p)
      as (Ht & Hf & Hob & _).
    assert (Hfl := showImmediately_flags
                     (querySelectorAll ["data-intro"; "data-reveal"] p) p).
    unfold flags in Hfl. injection Hfl as Hf_pr Hf_l _ Hf_dcl.
    split; [congruence|]. split; [congruence|].
    split; [congruence|]. split; [congruence|].
    split; [by apply showImmediately_onlyShown|].
    rewrite Hf, Hf_dcl.
    destruct Hph as [?|[?|(Hdcl & Hfr & _)]]; [by left|by right; left|].
    right. right. split_and!; try done. apply motionChange_allShown.
Qed.

Lemma reducedInv_run (doc : list Element) (evs : list Event) (p p' : Page) :
  reducedInv doc p → run evs p = Some p' → reducedInv doc p'.
Proof.
  revert p. induction evs as [|ev evs IH]; intros p Hp Hrun; simpl in Hrun.
  - by injection Hrun as <-.
  - destruct (step ev p) as [q|] eqn:Hstep; [|done].
    eapply IH; [|done]. by eapply reducedInv_step.
Qed.

Lemma onlyShown_refl (doc : list Element) : onlyShown doc doc.
Proof. split; [done|]. intros el e He. exists e. auto. Qed.

(** C5: with the reduced-motion preference set, [runIntro] and
    [setupReveals] put every element carrying their flag in the state
    opacity 1, transform none, with empty transition, and do nothing
    else: no timeout, no frame request, no observer.  Throughout such a
    session no timer is ever pending, no observer exists, every element
    is either as parsed or a flagged element in that end state, and
    after the initialisation frame all flagged elements are in it. *)
Theorem reduced_motion_end_state :
  (∀ p el e, prefersReduced p = true → document p !! el = Some e →
     (is_Some (getAttribute e "data-intro") →
        nodeStyle (runIntro p) el = Some (mkStyle "1" "" "none" ""))
     ∧ (is_Some (getAttribute e "data-reveal") →
          nodeStyle (setupReveals p) el = Some (mkStyle "1" "" "none" "")))
  ∧ (∀ p, prefersReduced p = true →
       timeouts (runIntro p) = timeouts p
       ∧ animationFrames (runIntro p) = animationFrames p
       ∧ observer (runIntro p) = observer p
       ∧ timeouts (setupReveals p) = timeouts p
       ∧ animationFrames (setupReveals p) = animationFrames p
       ∧ observer (setupReveals p) = observer p)
  ∧ (∀ w doc p0 evs p,
       main w doc = Normal p0 → prefersReduced p0 = true →
       run evs p0 = Some p →
       timeouts p = []
       ∧ observer p = None
       ∧ (animationFrames p = [] ∨ animationFrames p = [InitFrame])
       ∧ onlyShown doc (document p)
       ∧ (domContentLoaded p = true → animationFrames p = [] →
          allShown (document p))).
Proof.
  split; [|split; [apply reduced_rest|]].
  - intros p el e Hpr He. unfold nodeStyle. split; intros Hflag.
    + rewrite runIntro_reduced by done.
      rewrite (showImmediately_selected _ p el e He).
      by rewrite (proj2 (matchesSelector_single _ e) Hflag).
    + rewrite setupReveals_reduced by done.
      rewrite (showImmediately_selected _ p el e He).
      by rewrite (proj2 (matchesSelector_single _ e) Hflag).
  - intros w doc p0 evs p Hmain Hpr Hrun.
    assert (Hinv : reducedInv doc p0).
    { apply main_page in Hmain as (mq & _ & ->). simpl in Hpr.
      unfold reducedInv. simpl. split_and!; try done.
      - apply onlyShown_refl.
      - by left. }
    apply (reducedInv_run doc evs p0 p Hinv) in Hrun
      as (_ & _ & Hto & Ho & Hdoc & Hph).
    split_and!; try done.
    + destruct Hph as [[_ ?]|[[_ ?]|(_ & ? & _)]]; auto.
    + intros Hdcl Hfr. destruct Hph as [[? _]|[[_ ?]|(_ & _ & ?)]];
        [congruence|congruence|done].
Qed.

End ReducedSession.

(** ** The preference-change subscription *)

Lemma forEachFrom_commute {A} (g : Page → Page) (body : A → nat → Page → Page) :
  (∀ x i p, body x i (g p) = g (body x i p)) →
  ∀ xs i p, forEachFrom body i xs (g p) = g (forEachFrom body i xs p).
Proof.
  intros Hbody. induction xs as [|x xs IH]; intros i p; simpl; [done|].
  by rewrite Hbody, IH.
Qed.

Section Subscription.
Context `{JSHost}.

Lemma showImmediately_listener (b : bool) (nodes : list node) (p : Page) :
  showImmediately nodes (setOnMotionChange b p)
  = setOnMotionChange b (showImmediately nodes p).
Proof. by apply (forEachFrom_commute (setOnMotionChange b)). Qed.

Lemma runIntro_listener (b : bool) (p : Page) :
  runIntro (setOnMotionChange b p) = setOnMotionChange b (runIntro p).
Proof.
  unfold runIntro.
  change (querySelectorAll ["data-intro"] (setOnMotionChange b p))
    with (querySelectorAll ["data-intro"] p).
  change (prefersReduced (setOnMotionChange b p)) with (prefersReduced p).
  case_decide; [done|].
  destruct (prefersReduced p); [apply showImmediately_listener|].
  by apply (forEachFrom_commute (setOnMotionChange b)).
Qed.

Lemma setupReveals_listener (b : bool) (p : Page) :
  setupReveals (setOnMotionChange b p) = setOnMotionChange b (setupReveals p).
Proof.
  unfold setupReveals.
  change (querySelectorAll ["data-reveal"] (setOnMotionChange b p))
    with (querySelectorAll ["data-reveal"] p).
  change (prefersReduced (setOnMotionChange b p)) with (prefersReduced p).
  case_decide; [done|].
  destruct (prefersReduced p); [apply showImmediately_listener|].
  unfold forEach.
  rewrite (forEachFrom_commute (setOnMotionChange b) revealInitBody) by done.
  change (setObserver ?o (setOnMotionChange b ?q))
    with (setOnMotionChange b (setObserver o q)).
  apply (forEachFrom_commute (setOnMotionChange b)).
  intros el i q. unfold observeBody, observe. simpl. by destruct (observer q).
Qed.

Lemma runCallback_listener (b : bool) (cb : Callback) (p : Page) :
  runCallback cb (setOnMotionChange b p)
  = setOnMotionChange b (runCallback cb p).
Proof.
  destruct cb; simpl; try done.
  by rewrite runIntro_listener, setupReveals_listener.
Qed.

Lemma onIntersection_listener (b : bool)
  (entries : list IntersectionObserverEntry) (p : Page) :
  onIntersection entries (setOnMotionChange b p)
  = setOnMotionChange b (onIntersection entries p).
Proof.
  apply (forEachFrom_commute (setOnMotionChange b)).
  intros e i q. unfold onEntry. destruct (isIntersecting e); simpl; [|done].
  change (nodeAttribute (animateIn ?a ?b0 ?c ?d (setOnMotionChange b q)))
    with (nodeAttribute q).
  change (nodeAttribute (animateIn ?a ?b0 ?c ?d q)) with (nodeAttribute q).
  destruct (revealOnce _); [|done].
  unfold unobserve. simpl. by destruct (observer q).
Qed.

Lemma step_listener (b : bool) (ev : Event) (p : Page) :
  ev ≠ EvMotionChange →
  step ev (setOnMotionChange b p) = setOnMotionChange b <$> step ev p.
Proof.
  intros Hev. destruct ev as [| |k|entries|]; [..|done]; simpl.
  - destruct (domContentLoaded p); [done|]. simpl.
    by destruct (onDOMContentLoaded p).
  - f_equal.
    change (setAnimationFrames [] (setOnMotionChange b p))
      with (setOnMotionChange b (setAnimationFrames [] p)).
    generalize (setAnimationFrames [] p). intros q.
    revert q. induction (animationFrames p) as [|cb cbs IH]; intros q; [done|].
    simpl. by rewrite runCallback_listener, IH.
  - destruct (timeouts p !! k) as [[cb ms]|]; [|done]. simpl. f_equal.
    apply (runCallback_listener b cb (setTimeouts (delete k (timeouts p)) p)).
  - destruct (observer p) as [o|]; [|done].
    destruct (forallb _ entries); [|done]. simpl. f_equal.
    apply onIntersection_listener.
Qed.

Lemma run_listener (b : bool) (evs : list Event) (p : Page) :
  EvMotionChange ∉ evs →
  run evs (setOnMotionChange b p) = setOnMotionChange b <$> run evs p.
Proof.
  revert p. induction evs as [|ev evs IH]; intros p Hevs; [done|].
  apply not_elem_of_cons in Hevs as [Hev Hevs]. simpl.
  rewrite step_listener by done.
  destruct (step ev p) as [q|]; [|done]. simpl. by apply IH.
Qed.

(** C8: the change handler puts every element carrying either flag in
    the state opacity 1, transform none within the one step that
    handles the notification, scheduling nothing.  When
    [addEventListener] is missing or throws, the script still completes
    normally, with the DOMContentLoaded listener registered; the only
    difference is the missing subscription: every run without change
    notifications is the same, and a change notification does
    nothing. *)
Theorem motion_change_handler :
  (∀ p el e, document p !! el = Some e → flagged e →
     nodeStyle (onMotionChangeBody p) el = Some (mkStyle "1" "" "none" ""))
  ∧ (∀ p, onMotionChange p = true →
       step EvMotionChange p = Some (onMotionChangeBody p))
  ∧ (∀ p, timeouts (onMotionChangeBody p) = timeouts p
          ∧ animationFrames (onMotionChangeBody p) = animationFrames p
          ∧ observer (onMotionChangeBody p) = observer p)
  ∧ (∀ reduce doc,
       main (mkWindow (Some (mkMediaQueryList reduce IsFunction))) doc
       = Normal (pageOf reduce doc))
  ∧ (∀ reduce member doc, member ≠ IsFunction →
       main (mkWindow (Some (mkMediaQueryList reduce member))) doc
       = Normal (setOnMotionChange false (pageOf reduce doc)))
  ∧ (∀ evs p, EvMotionChange ∉ evs →
       run evs (setOnMotionChange false p)
       = setOnMotionChange false <$> run evs p)
  ∧ (∀ p, onMotionChange p = false → step EvMotionChange p = Some p).
Proof.
  split_and!.
  - intros p el e He Hfl. unfold nodeStyle, onMotionChangeBody.
    rewrite (showImmediately_selected _ p el e He).
    by rewrite flagged_matchesSelector.
  - intros p Hl. simpl. by rewrite Hl.
  - intros p. unfold onMotionChangeBody.
    destruct (showImmediately_rest
                (querySelectorAll ["data-intro"; "data-reveal"] p) p)
      as (-> & -> & -> & _). done.
  - done.
  - intros reduce member doc Hm. by destruct member.
  - intros evs p. apply run_listener.
  - intros p Hl. simpl. by rewrite Hl.
Qed.

End Subscription.

(** ** The cleanup window *)

Section Cleanup.
Context `{JSHost}.

(** The first intro element (no delay attribute) ends within the window. *)
Lemma first_intro_within_window :
  num_ltb (num_add baseDuration (num_mul (num_of_nat 0) baseStagger))
          (num_of_nat clearWindow) = true.
Proof. reflexivity. Qed.

(** Every later one does not: 900 + i * 220 is at least 1120. *)
Lemma stagger_exceeds_window (i : nat) :
  (1 ≤ i)%nat →
  num_ltb (num_add baseDuration (num_mul (num_of_nat i) baseStagger))
          (num_of_nat clearWindow) = false.
Proof.
  intros Hi. unfold baseDuration, baseStagger, num_of_nat, num_of_Z, clearWindow.
  cbn [num_mul num_add num_ltb].
  destruct (Qcompare_spec (inject_Z 900 + inject_Z (Z.of_nat i) * inject_Z 220)
                          (inject_Z (Z.of_nat 1100))) as [E|L|G]; [done| |done].
  exfalso. unfold Qlt in L. simpl in L. lia.
Qed.

(** C7 (failing input): on a page with two intro elements and no
    optional attribute the second element is animated with delay 220 and
    duration 900, and its cleanup is scheduled by the same callback
    after 1100, which is not more than 900 + 220. *)
Theorem clearTransition_window_too_short :
  timeouts (runIntro (pageOf false plainIntroDocument))
  = [(IntroTimeout 0 (num_of_Z 0), 20); (IntroTimeout 1 (num_of_Z 220), 20)]
  ∧ (∀ q, animationFrames (runCallback (IntroTimeout 1 (num_of_Z 220)) q)
          = (animationFrames q
             ++ [AnimateInFrame 1 (num_of_Z 220) (num_of_Z 900) defaultEasing])%list
          ∧ timeouts (runCallback (IntroTimeout 1 (num_of_Z 220)) q)
            = (timeouts q ++ [(ClearTimeout 1, 1100)])%list)
  ∧ num_add (num_of_Z 900) (num_of_Z 220) = num_of_Z 1120
  ∧ num_ltb (num_add (num_of_Z 900) (num_of_Z 220)) (num_of_nat clearWindow)
    = false.
Proof. split_and!; try done. Qed.

End Cleanup.

(** * Worked instances *)

(** Without [window.matchMedia] the first statement of the script throws,
    before any listener is registered. *)
Example main_without_matchMedia (doc : list Element) :
  main (mkWindow None) doc
  = Throw "TypeError: window.matchMedia is not a function".
Proof. reflexivity. Qed.

(** Unobserving takes effect for later batches: entries that the host has
    already put in the current batch are all handled. *)
Example same_batch_entries_all_handled :
  framesFor 3 (@onIntersection integerHost
                 [mkEntry 3 true; mkEntry 3 false; mkEntry 3 true] heroReady)
  = [ AnimateInFrame 3 (num_of_Z 120) (num_of_Z 800) defaultEasing;
      AnimateInFrame 3 (num_of_Z 120) (num_of_Z 800) defaultEasing ].
Proof. vm_compute. reflexivity. Qed.

Example introOrder_stagger :
  @introOrder integerHost (pageOf false staggerDocument) = [2; 1; 0]%nat.
Proof. vm_compute. reflexivity. Qed.

Example runIntro_stagger_timeouts :
  timeouts (@runIntro integerHost (pageOf false staggerDocument))
  = [ (IntroTimeout 2 (num_of_Z 0), 20);
      (IntroTimeout 1 (num_of_Z 500), 20);
      (IntroTimeout 0 (num_of_Z 440), 20) ]%nat.
Proof. vm_compute. reflexivity. Qed.

Lemma runIntro_delay_duration_stagger :
  ∃ delay,
    timeouts (@runIntro integerHost (pageOf false staggerDocument)) !! 2%nat
      = Some (IntroTimeout 0 delay, 20%nat)
    ∧ delay = num_of_Z 440.
Proof.
  destruct (@runIntro_delay_duration integerHost
              (pageOf false staggerDocument) 2 0)
    as (_ & delay & Ht & Hd & _).
  - reflexivity.
  - repeat (constructor; [vm_compute; reflexivity|]). constructor.
  - vm_compute. reflexivity.
  - exists delay. split; [exact Ht | exact Hd].
Defined.

Lemma runIntro_order_stagger :
  scheduledIntro (@runIntro integerHost (pageOf false staggerDocument))
  = [2; 1; 0]%nat
  ∧ StronglySorted (@introBefore integerHost (pageOf false staggerDocument))
                   [2; 1; 0]%nat
  ∧ @introKey integerHost (pageOf false staggerDocument) 0 = num_of_Z 2
  ∧ @introKey integerHost (pageOf false staggerDocument) 1 = num_of_Z 1
  ∧ @introKey integerHost (pageOf false staggerDocument) 2 = num_of_Z 0.
Proof.
  destruct (@runIntro_order integerHost (pageOf false staggerDocument))
    as (order & Hs & _ & Hsorted & _ & _ & Habsent & _ & Hkey).
  - reflexivity.
  - repeat (constructor; [vm_compute; reflexivity|]). constructor.
  - assert (Horder : order = [2; 1; 0]%nat).
    { assert (Hlhs : scheduledIntro
                       (@runIntro integerHost (pageOf false staggerDocument))
                     = [2; 1; 0]%nat) by (vm_compute; reflexivity).
      rewrite Hlhs in Hs. simpl in Hs. congruence. }
    subst order. split; [exact Hs|]. split; [exact Hsorted|].
    split; [|split].
    + exact (Hkey 0%nat "2" eq_refl ltac:(discriminate)).
    + exact (Hkey 1%nat "1" eq_refl ltac:(discriminate)).
    + exact (Habsent 2%nat eq_refl).
Defined.

Lemma getDynamicThreshold_45 :
  getDynamicThreshold (seq 0 45) = Finite (5 # 100).
Proof.
  apply (proj1 (proj2 (@getDynamicThreshold_by_length integerHost))).
  vm_compute. lia.
Defined.

Lemma translateFrom_shouting_down :
  @translateFrom integerHost (Some "DOWN") (num_of_Z 10) = "translateY(-10px)".
Proof.
  apply (proj1 (@translateFrom_directions integerHost (num_of_Z 10)) (Some "DOWN")).
  vm_compute. reflexivity.
Defined.

Lemma reduced_hero_shown :
  nodeStyle (@runIntro integerHost (pageOf true heroDocument)) 0
  = Some (mkStyle "1" "" "none" "").
Proof.
  refine (proj1 (proj1 (@reduced_motion_end_state integerHost)
                   (pageOf true heroDocument) 0%nat _ _ _) _).
  - reflexivity.
  - vm_compute. reflexivity.
  - vm_compute. eexists. reflexivity.
Defined.

Lemma reveal_once_hero :
  (3%nat ∉ observed (@onIntersection integerHost [mkEntry 3 true] heroReady))
  ∧ ∀ evs' q,
      @run integerHost evs' (@onIntersection integerHost [mkEntry 3 true] heroReady)
      = Some q →
      (3%nat ∉ observed q)
      ∧ ∀ entries' q', @step integerHost (EvIntersection entries') q = Some q' →
          (∀ e', e' ∈ entries' → target e' ≠ 3%nat)
          ∧ framesFor 3 q' = framesFor 3 q
          ∧ timeoutsFor 3 q' = timeoutsFor 3 q.
Proof.
  apply (@reveal_once_stops_observing integerHost (motionWindow false)
           heroDocument (pageOf false heroDocument) heroReady
           (@onIntersection integerHost [mkEntry 3 true] heroReady)
           [EvDOMContentLoaded; EvAnimationFrame] [mkEntry 3 true] 3%nat).
  - reflexivity.
  - vm_compute. reflexivity.
  - vm_compute. reflexivity.
  - exists (mkEntry 3 true). split; [apply list_elem_of_here | split; reflexivity].
  - vm_compute. reflexivity.
Defined.

Lemma motion_change_hero :
  nodeStyle (onMotionChangeBody heroReady) 3
  = Some (mkStyle "1" "" "none" "").
Proof.
  refine (proj1 (@motion_change_handler integerHost) heroReady 3%nat _ _ _).
  - vm_compute. reflexivity.
  - right. vm_compute. eexists. reflexivity.
Defined.

Lemma revealOnce_true_literal : revealOnce (Some "true") = true.
Proof.
  apply (proj2 (proj1 (@revealOnce_exact integerHost (Some "true") (num_of_Z 10)))).
  right. reflexivity.
Defined.

Lemma onEntry_hero_not_intersecting :
  @onEntry integerHost (mkEntry 3 false) 0 heroReady = heroReady.
Proof.
  apply (proj1 (@onIntersection_not_intersecting integerHost)).
  reflexivity.
Defined.


(** * Further properties of the script *)

(** ** The clamp helper *)

Lemma num_ltb_irrefl (x : number) : num_ltb x x = false.
Proof.
  destruct x as [| |q|]; num_simpl; try done.
  destruct (Qcompare_spec q q) as [E|L|G]; try done;
    by apply Qlt_irrefl in L.
Qed.

(** [a < b] and [b <= c] give [a < c]. *)
Lemma num_ltb_leb_trans (a b c : number) :
  is_NaN b = false → is_NaN c = false →
  num_ltb a b = true → num_ltb c b = false → num_ltb a c = true.
Proof.
  intros Hb Hc Hab Hcb.
  destruct (num_ltb_total b c Hb Hc Hcb) as [L|E].
  - by eapply num_ltb_trans.
  - by eapply num_ltb_eqb_trans.
Qed.

Lemma num_ltb_NaN_r (x : number) : num_ltb x NaN = false.
Proof. by destruct x. Qed.

Lemma Math_max_numeric (x y : number) :
  is_NaN x = false → is_NaN y = false →
  Math_max x y = (if num_ltb x y then y else x)
  ∧ is_NaN (Math_max x y) = false.
Proof.
  intros Hx Hy. unfold Math_max. rewrite Hx, Hy. simpl.
  by destruct (num_ltb x y).
Qed.

Lemma Math_min_numeric (x y : number) :
  is_NaN x = false → is_NaN y = false →
  Math_min x y = (if num_ltb y x then y else x).
Proof. intros Hx Hy. unfold Math_min. by rewrite Hx, Hy. Qed.

(** X1: with numeric arguments and [min <= max], [clamp] returns a value
    between the bounds: [n] itself when it lies between them, [min] when
    [n] is below and [max] when [n] is above. *)
Theorem clamp_within_bounds (n lo hi : number) :
  is_NaN n = false → num_leb lo hi = true →
  num_leb lo (clamp n lo hi) = true
  ∧ num_leb (clamp n lo hi) hi = true
  ∧ (num_leb lo n = true → num_leb n hi = true → clamp n lo hi = n)
  ∧ (num_ltb n lo = true → clamp n lo hi = lo)
  ∧ (num_ltb hi n = true → clamp n lo hi = hi).
Proof.
  intros Hn Hle. unfold num_leb in *.
  destruct (is_NaN lo) eqn:Hlo; [done|].
  destruct (is_NaN hi) eqn:Hhi; [done|]. simpl in Hle.
  apply negb_true_iff in Hle. rewrite Hn. simpl.
  unfold clamp.
  destruct (Math_max_numeric n lo Hn Hlo) as [-> Hm].
  rewrite Math_min_numeric by done. clear Hm.
  destruct (num_ltb n lo) eqn:Hnlo.
  - rewrite !Hle, ?Hlo, ?num_ltb_irrefl, ?Hle. simpl.
    split_and!; try done.
    intros Hh. by rewrite (num_ltb_trans hi n lo) in Hle.
  - destruct (num_ltb hi n) eqn:Hhn.
    + rewrite ?Hhi, ?Hle, ?num_ltb_irrefl. by split_and!.
    + rewrite ?Hn, ?Hnlo, ?Hhn. by split_and!.
Qed.

(** X2: [clamp] does not validate its arguments: a [NaN] in any position
    gives [NaN], and with the bounds inverted ([max < min]) every numeric
    [n] is sent to [max]. *)
Theorem clamp_unvalidated (n lo hi : number) :
  clamp NaN lo hi = NaN
  ∧ clamp n NaN hi = NaN
  ∧ clamp n lo NaN = NaN
  ∧ (is_NaN n = false → num_ltb hi lo = true → clamp n lo hi = hi).
Proof.
  unfold clamp. split_and!.
  - done.
  - unfold Math_max. by rewrite orb_true_r.
  - unfold Math_min. by rewrite orb_true_r.
  - intros Hn Hlt.
    assert (Hlo : is_NaN lo = false) by by destruct lo, hi.
    assert (Hhi : is_NaN hi = false) by by destruct hi.
    destruct (Math_max_numeric n lo Hn Hlo) as [-> Hm].
    rewrite Math_min_numeric by done. clear Hm.
    destruct (num_ltb n lo) eqn:Hnlo.
    + by rewrite Hlt.
    + by rewrite (num_ltb_leb_trans hi lo n).
Qed.

(** ** More on the intro runner *)

(** A sort whose comparator is never positive on two elements of the
    list leaves the list as it is. *)
Lemma Array_sort_fixed (cmp : node → node → number) (l : list node) :
  (∀ a b, a ∈ l → b ∈ l → num_pos (cmp a b) = false) → Array_sort cmp l = l.
Proof.
  induction l as [|x l IH]; intros Hcmp; [done|]. simpl.
  rewrite IH by (intros a b Ha Hb; apply Hcmp; by right).
  destruct l as [|y l]; [done|]. simpl.
  rewrite Hcmp; [done|by left|by right; left].
Qed.

Section IntroMore.
Context `{JSHost}.

(** X3: with motion allowed, [runIntro] puts every intro element in the
    hidden state of its own direction (opacity 0, the will-change hint,
    the offset transform) and keeps its transition; it leaves every other
    element, the pending frames and the observer as they were. *)
Theorem runIntro_hidden_state (p : Page) :
  prefersReduced p = false →
  (∀ el e, document p !! el = Some e →
     is_Some (getAttribute e "data-intro") →
     nodeStyle (runIntro p) el
     = Some (mkStyle "0" "opacity, transform"
               (translateFrom (Some (str_or (getAttribute e "data-intro-from") "up"))
                              (num_of_Z 10))
               (transition (style e))))
  ∧ (∀ el e, document p !! el = Some e →
       ¬ is_Some (getAttribute e "data-intro") →
       document (runIntro p) !! el = Some e)
  ∧ animationFrames (runIntro p) = animationFrames p
  ∧ observer (runIntro p) = observer p.
Proof.
  intros Hpr. split_and!.
  - intros el e He Hflag. unfold nodeStyle.
    rewrite runIntro_document by done.
    rewrite restyle_lookup_in.
    + by rewrite He, (nodeAttribute_lookup p el e).
    + apply introOrder_NoDup.
    + rewrite introOrder_perm. apply elem_of_querySelectorAll.
      exists e. by rewrite matchesSelector_single.
  - intros el e He Hflag.
    rewrite runIntro_document by done.
    rewrite restyle_lookup_notin; [done|].
    rewrite introOrder_perm.
    intros (e' & He' & Hm)%elem_of_querySelectorAll.
    apply matchesSelector_single in Hm. congruence.
  - apply runIntro_queues.
  - apply runIntro_queues.
Qed.

(** X4: whatever the order attributes are, numeric or not, [runIntro]
    schedules one 20ms timeout per intro element: the new timeouts follow
    a duplicate-free rearrangement of the intro elements. *)
Theorem runIntro_schedules_each_once (p : Page) :
  prefersReduced p = false →
  ∃ order,
    order ≡ₚ querySelectorAll ["data-intro"] p
    ∧ NoDup order
    ∧ timeouts (runIntro p)
      = (timeouts p
         ++ imap (λ i el, (IntroTimeout el (introDelay p el i), 20)) order)%list
    ∧ scheduledIntro (runIntro p) = (scheduledIntro p ++ order)%list.
Proof.
  intros Hpr. exists (introOrder p). split_and!.
  - apply introOrder_perm.
  - apply introOrder_NoDup.
  - by apply runIntro_timeouts.
  - unfold scheduledIntro. rewrite runIntro_timeouts by done.
    rewrite omap_app. f_equal. apply omap_intro_targets.
Qed.

Lemma introKey_absent (p : Page) (el : node) :
  nodeAttribute p el "data-intro-order" = None → introKey p el = num_of_Z 0.
Proof. intros Hnone. unfold introKey. by rewrite Hnone. Qed.

(** X5: when no intro element has an order attribute the elements are
    visited in document order, so the k-th intro element of the document
    gets the timeout with delay [k * 220] unless it has a delay attribute
    of its own. *)
Theorem runIntro_document_order (p : Page) :
  prefersReduced p = false →
  (∀ el, el ∈ querySelectorAll ["data-intro"] p →
         nodeAttribute p el "data-intro-order" = None) →
  introOrder p = querySelectorAll ["data-intro"] p
  ∧ timeouts (runIntro p)
    = (timeouts p
       ++ imap (λ k el, (IntroTimeout el (introDelay p el k), 20))
               (querySelectorAll ["data-intro"] p))%list
  ∧ (∀ k el, querySelectorAll ["data-intro"] p !! k = Some el →
       nodeAttribute p el "data-intro-delay" = None →
       introDelay p el k = num_of_Z (Z.of_nat k * 220)).
Proof.
  intros Hpr Hnone.
  assert (Hfix : introOrder p = querySelectorAll ["data-intro"] p).
  { apply Array_sort_fixed. intros a b Ha Hb.
    change (introCompare p a b) with (num_sub (introKey p a) (introKey p b)).
    by rewrite !introKey_absent by auto. }
  split_and!.
  - done.
  - rewrite runIntro_timeouts by done. by rewrite Hfix.
  - intros k el _ Hd. unfold introDelay. by rewrite Hd.
Qed.

End IntroMore.

(** ** More on the reveal watcher *)

Section RevealMore.
Context `{JSHost}.

(** X6: with motion allowed, [setupReveals] creates no observer when the
    document has no reveal element, and otherwise one observer with the
    bottom margin of -10% that observes exactly the reveal elements; it
    puts every reveal element in the hidden state of its own direction,
    leaves every other element alone and schedules nothing. *)
Theorem setupReveals_registration (p : Page) :
  prefersReduced p = false →
  (querySelectorAll ["data-reveal"] p = [] → setupReveals p = p)
  ∧ (querySelectorAll ["data-reveal"] p ≠ [] →
       ∃ o, observer (setupReveals p) = Some o
            ∧ rootMargin o = "0px 0px -10% 0px"
            ∧ ∀ el, el ∈ targets o ↔
                    ∃ e, document p !! el = Some e
                         ∧ is_Some (getAttribute e "data-reveal"))
  ∧ (∀ el e, document p !! el = Some e →
       is_Some (getAttribute e "data-reveal") →
       nodeStyle (setupReveals p) el
       = Some (mkStyle "0" "opacity, transform"
                 (translateFrom (Some (str_or (getAttribute e "data-reveal-from") "up"))
                                (num_of_Z 10))
                 (transition (style e))))
  ∧ (∀ el e, document p !! el = Some e →
       ¬ is_Some (getAttribute e "data-reveal") →
       document (setupReveals p) !! el = Some e)
  ∧ timeouts (setupReveals p) = timeouts p
  ∧ animationFrames (setupReveals p) = animationFrames p.
Proof.
  intros Hpr. split_and!.
  - apply setupReveals_none.
  - intros Hne.
    destruct (setupReveals_observer p Hpr Hne) as (o & Ho & Hm & _ & Hx).
    exists o. split_and!; [done..|].
    intros el. rewrite Hx, elem_of_querySelectorAll.
    by setoid_rewrite matchesSelector_single.
  - intros el e He Hflag. unfold nodeStyle.
    rewrite setupReveals_document by done.
    rewrite restyle_lookup_in.
    + by rewrite He, (nodeAttribute_lookup p el e).
    + apply querySelectorAll_NoDup.
    + apply elem_of_querySelectorAll.
      exists e. by rewrite matchesSelector_single.
  - intros el e He Hflag.
    rewrite setupReveals_document by done.
    rewrite restyle_lookup_notin; [done|].
    intros (e' & He' & Hm)%elem_of_querySelectorAll.
    apply matchesSelector_single in Hm. congruence.
  - apply setupReveals_queues.
  - apply setupReveals_queues.
Qed.

Lemma forEachFrom_onEntry_queues (entries : list IntersectionObserverEntry)
  (i : nat) (p : Page) :
  animationFrames (forEachFrom onEntry i entries p)
  = (animationFrames p
     ++ ((λ e, AnimateInFrame (target e) (revealDelay p (target e))
                              (num_of_Z 800) defaultEasing)
         <$> filter (λ e, isIntersecting e = true) entries))%list
  ∧ timeouts (forEachFrom onEntry i entries p)
    = (timeouts p
       ++ ((λ e, (ClearTimeout (target e), 1100%nat))
           <$> filter (λ e, isIntersecting e = true) entries))%list.
Proof.
  revert i p. induction entries as [|e entries IH]; intros i p.
  - simpl. by rewrite !app_nil_r.
  - simpl. destruct (IH (S i) (onEntry e i p)) as [-> ->].
    rewrite onEntry_frames, onEntry_timeouts.
    assert (Hd : ∀ el, revealDelay (onEntry e i p) el = revealDelay p el).
    { intros el. unfold revealDelay. by rewrite onEntry_nodeAttribute. }
    destruct (isIntersecting e) eqn:Hi.
    + rewrite filter_cons_True by done. rewrite !fmap_cons, <- !app_assoc.
      simpl. split; [|done]. do 2 f_equal.
      apply list_fmap_ext. intros _ e' _. by rewrite Hd.
    + rewrite filter_cons_False by (by rewrite Hi). rewrite !app_nil_r.
      split; [|done]. f_equal.
      apply list_fmap_ext. intros _ e' _. by rewrite Hd.
Qed.

(** X7: an intersection batch writes no style itself; for each of its
    intersecting entries, in order, it requests one animation frame with
    the element's reveal delay (0 without the attribute) and duration 800
    and sets one cleanup timer of 1100. *)
Theorem onIntersection_schedules (entries : list IntersectionObserverEntry)
  (p : Page) :
  document (onIntersection entries p) = document p
  ∧ animationFrames (onIntersection entries p)
    = (animationFrames p
       ++ ((λ e, AnimateInFrame (target e) (revealDelay p (target e))
                                (num_of_Z 800) defaultEasing)
           <$> filter (λ e, isIntersecting e = true) entries))%list
  ∧ timeouts (onIntersection entries p)
    = (timeouts p
       ++ ((λ e, (ClearTimeout (target e), 1100%nat))
           <$> filter (λ e, isIntersecting e = true) entries))%list
  ∧ (∀ el, nodeAttribute p el "data-reveal-delay" = None →
           revealDelay p el = num_of_Z 0)
  ∧ (∀ el s, nodeAttribute p el "data-reveal-delay" = Some s → s ≠ "" →
             revealDelay p el = StringToNumber s).
Proof.
  unfold onIntersection, forEach. split_and!.
  - apply forEachFrom_onEntry_document.
  - apply forEachFrom_onEntry_queues.
  - apply forEachFrom_onEntry_queues.
  - intros el Hnone. unfold revealDelay. by rewrite Hnone.
  - intros el s Hs Hne. unfold revealDelay, Number_or. rewrite Hs.
    by rewrite decide_False.
Qed.

(** X8: after a batch an element is observed exactly when it was observed
    before and the batch has no intersecting entry for it with the
    once-flag true; an element whose once-flag is false is never
    unobserved by a batch. *)
Theorem onIntersection_observed (entries : list IntersectionObserverEntry)
  (p : Page) (el : node) :
  (el ∈ observed (onIntersection entries p) ↔
   el ∈ observed p
   ∧ ¬ ∃ e, e ∈ entries ∧ target e = el ∧ isIntersecting e = true
            ∧ revealOnce (nodeAttribute p el "data-reveal-once") = true)
  ∧ (revealOnce (nodeAttribute p el "data-reveal-once") = false →
     (el ∈ observed (onIntersection entries p) ↔ el ∈ observed p)).
Proof.
  unfold onIntersection, forEach. split.
  - apply forEachFrom_onEntry_observed.
  - intros Honce. rewrite forEachFrom_onEntry_observed.
    split; [by intros [? _]|]. intros Hin. split; [done|].
    intros (e & _ & _ & _ & Ht). congruence.
Qed.

End RevealMore.

(** ** What a session never does *)

Lemma forEachFrom_invariant {A} (P : Page → Prop)
  (body : A → nat → Page → Page) (xs : list A) :
  (∀ x i p, x ∈ xs → P p → P (body x i p)) →
  ∀ i p, P p → P (forEachFrom body i xs p).
Proof.
  induction xs as [|x xs IH]; intros Hbody i p Hp; [done|]. simpl.
  apply IH.
  - intros y j q Hy. apply Hbody. by right.
  - apply Hbody; [by left|done].
Qed.

Lemma revealIn_flaggedIn (doc : list Element) (el : node) :
  revealIn doc el → flaggedIn doc el.
Proof. intros (e0 & He0 & Hr). exists e0. split; [done|by right]. Qed.

Lemma attrsOf_lookup (doc : list Element) (p : Page) (el : node) (e : Element) :
  attrsOf p = attributes <$> doc → document p !! el = Some e →
  ∃ e0, doc !! el = Some e0 ∧ attributes e0 = attributes e.
Proof.
  intros Hattrs He.
  assert (Hl : attrsOf p !! el = (attributes <$> doc) !! el) by by rewrite Hattrs.
  unfold attrsOf in Hl. rewrite !list_lookup_fmap, He in Hl.
  destruct (doc !! el) as [e0|]; [|done]. exists e0.
  split; [done|]. simpl in Hl. congruence.
Qed.

Lemma querySelectorAll_flaggedIn (doc : list Element) (names : list string)
  (p : Page) (el : node) :
  attrsOf p = attributes <$> doc →
  names ⊆ ["data-intro"; "data-reveal"] →
  el ∈ querySelectorAll names p → flaggedIn doc el.
Proof.
  intros Hattrs Hsub (e & He & Hm)%elem_of_querySelectorAll.
  destruct (attrsOf_lookup doc p el e Hattrs He) as (e0 & He0 & Ha).
  exists e0. split; [done|].
  apply (flagged_attrs e); [done|]. by apply (matchesSelector_flagged names).
Qed.

Lemma querySelectorAll_revealIn (doc : list Element) (p : Page) (el : node) :
  attrsOf p = attributes <$> doc →
  el ∈ querySelectorAll ["data-reveal"] p → revealIn doc el.
Proof.
  intros Hattrs (e & He & Hm)%elem_of_querySelectorAll.
  destruct (attrsOf_lookup doc p el e Hattrs He) as (e0 & He0 & Ha).
  exists e0. split; [done|].
  apply matchesSelector_single in Hm. unfold getAttribute in *. by rewrite Ha.
Qed.

Lemma tidy_updateStyle (doc : list Element) (el : node) (f : Style → Style)
  (p : Page) :
  flaggedIn doc el → tidy doc p → tidy doc (updateStyle el f p).
Proof.
  intros (e0 & He0 & Hfl) (Hattrs & Hfr & Hto & Hobs & Hun).
  split_and!; try done.
  - by rewrite updateStyle_attrs.
  - intros el' e0' He0' Hnf. simpl.
    rewrite list_lookup_alter_ne; [by apply Hun|].
    intros ->. rewrite He0 in He0'. by simplify_eq.
Qed.

Lemma tidy_setTimeout (doc : list Element) (cb : Callback) (ms : nat) (p : Page) :
  okTimeout doc (cb, ms) → tidy doc p → tidy doc (setTimeout cb ms p).
Proof.
  intros Hok (Hattrs & Hfr & Hto & Hobs & Hun).
  split_and!; try done. simpl. apply Forall_app. split; [done|].
  by apply Forall_singleton.
Qed.

Lemma tidy_requestAnimationFrame (doc : list Element) (cb : Callback) (p : Page) :
  okFrame doc cb → tidy doc p → tidy doc (requestAnimationFrame cb p).
Proof.
  intros Hok (Hattrs & Hfr & Hto & Hobs & Hun).
  split_and!; try done. simpl. apply Forall_app. split; [done|].
  by apply Forall_singleton.
Qed.

Lemma tidy_unobserve (doc : list Element) (el : node) (p : Page) :
  tidy doc p → tidy doc (unobserve el p).
Proof.
  intros (Hattrs & Hfr & Hto & Hobs & Hun).
  assert (Hsame : document (unobserve el p) = document p
                  ∧ animationFrames (unobserve el p) = animationFrames p
                  ∧ timeouts (unobserve el p) = timeouts p).
  { unfold unobserve. by destruct (observer p). }
  destruct Hsame as (Hd & Hf & Ht).
  split_and!.
  - unfold attrsOf. by rewrite Hd.
  - by rewrite Hf.
  - by rewrite Ht.
  - intros x [Hx _]%elem_of_observed_unobserve. by apply Hobs.
  - intros el' e0' ??. rewrite Hd. by apply Hun.
Qed.

Lemma tidy_observe (doc : list Element) (el : node) (p : Page) :
  revealIn doc el → tidy doc p → tidy doc (observe el p).
Proof.
  intros Hel (Hattrs & Hfr & Hto & Hobs & Hun).
  assert (Hsame : document (observe el p) = document p
                  ∧ animationFrames (observe el p) = animationFrames p
                  ∧ timeouts (observe el p) = timeouts p).
  { unfold observe. by destruct (observer p). }
  destruct Hsame as (Hd & Hf & Ht).
  split_and!.
  - unfold attrsOf. by rewrite Hd.
  - by rewrite Hf.
  - by rewrite Ht.
  - intros x [Hx|[-> _]]%elem_of_observed_observe; [by apply Hobs|done].
  - intros el' e0' ??. rewrite Hd. by apply Hun.
Qed.

Section Tidy.
Context `{JSHost}.

Lemma tidy_showImmediately (doc : list Element) (nodes : list node) (p : Page) :
  (∀ el, el ∈ nodes → flaggedIn doc el) →
  tidy doc p → tidy doc (showImmediately nodes p).
Proof.
  intros Hnodes. unfold showImmediately, forEach.
  apply (forEachFrom_invariant (tidy doc)). intros el i q Hel Hq.
  by repeat apply tidy_updateStyle; auto.
Qed.

Lemma tidy_setInitialState (doc : list Element) (el : node)
  (from : option string) (p : Page) :
  flaggedIn doc el → tidy doc p → tidy doc (setInitialState el from p).
Proof.
  intros Hel Hp. unfold setInitialState.
  by repeat apply tidy_updateStyle.
Qed.

Lemma tidy_runIntro (doc : list Element) (p : Page) :
  tidy doc p → tidy doc (runIntro p).
Proof.
  intros Hp. pose proof Hp as (Hattrs & _).
  assert (Hnodes : ∀ el, el ∈ querySelectorAll ["data-intro"] p → flaggedIn doc el).
  { intros el. apply querySelectorAll_flaggedIn; [done|set_solver]. }
  destruct (prefersReduced p) eqn:Hpr.
  - rewrite runIntro_reduced by done. by apply tidy_showImmediately.
  - rewrite runIntro_animated by done. unfold forEach.
    apply (forEachFrom_invariant (tidy doc)); [|done].
    intros el i q Hel Hq. rewrite introOrder_perm in Hel.
    unfold introBody. apply tidy_setTimeout; [by split; [apply Hnodes|]|].
    apply tidy_setInitialState; auto.
Qed.

Lemma tidy_setupReveals (doc : list Element) (p : Page) :
  tidy doc p → tidy doc (setupReveals p).
Proof.
  intros Hp. pose proof Hp as (Hattrs & _).
  assert (Hnodes : ∀ el, el ∈ querySelectorAll ["data-reveal"] p → revealIn doc el).
  { intros el. by apply querySelectorAll_revealIn. }
  destruct (prefersReduced p) eqn:Hpr.
  - rewrite setupReveals_reduced by done. apply tidy_showImmediately; [|done].
    intros el Hel. by apply revealIn_flaggedIn, Hnodes.
  - destruct (decide (querySelectorAll ["data-reveal"] p = [])) as [Hnil|Hne].
    { by rewrite setupReveals_none. }
    rewrite setupReveals_animated by done. unfold forEach.
    apply (forEachFrom_invariant (tidy doc)).
    { intros el i q Hel Hq. apply tidy_observe; auto. }
    assert (Hinit : tidy doc (forEachFrom revealInitBody 0
                                (querySelectorAll ["data-reveal"] p) p)).
    { apply (forEachFrom_invariant (tidy doc)); [|done].
      intros el i q Hel Hq. apply tidy_setInitialState; [|done].
      by apply revealIn_flaggedIn, Hnodes. }
    destruct Hinit as (Ha & Hf & Ht & _ & Hu).
    split_and!; try done; intros el Hel; by apply elem_of_empty in Hel.
Qed.

Lemma tidy_runCallback (doc : list Element) (cb : Callback) (p : Page) :
  flaggedTarget doc cb → tidy doc p → tidy doc (runCallback cb p).
Proof.
  intros Hcb Hp.
  destruct cb as [|el delay|el delay duration easing|el]; simpl.
  - by apply tidy_setupReveals, tidy_runIntro.
  - unfold introTimeoutBody, clearTransition, animateIn.
    apply tidy_setTimeout; [by split|].
    apply tidy_requestAnimationFrame; [|done]. simpl. split_and!; auto.
  - unfold animateInFrame. by repeat apply tidy_updateStyle.
  - unfold clearTimeoutBody. by repeat apply tidy_updateStyle.
Qed.

Lemma tidy_onIntersection (doc : list Element)
  (entries : list IntersectionObserverEntry) (p : Page) :
  (∀ e, e ∈ entries → flaggedIn doc (target e)) →
  tidy doc p → tidy doc (onIntersection entries p).
Proof.
  intros Hentries. unfold onIntersection, forEach.
  apply (forEachFrom_invariant (tidy doc)). intros e i q He Hq.
  unfold onEntry. destruct (isIntersecting e); simpl; [|done].
  assert (Hq' : tidy doc (clearTransition (target e)
                   (animateIn (target e) (Some (revealDelay q (target e)))
                              (Some (num_of_Z 800)) None q))).
  { unfold clearTransition, animateIn.
    apply tidy_setTimeout; [by split; [apply Hentries|]|].
    apply tidy_requestAnimationFrame; [|done]. simpl.
    split_and!; auto. }
  destruct (revealOnce _); [by apply tidy_unobserve|done].
Qed.

Lemma okFrame_flaggedTarget (doc : list Element) (cb : Callback) :
  okFrame doc cb → flaggedTarget doc cb.
Proof. destruct cb; simpl; try done. by intros [? _]. Qed.

Lemma okTimeout_flaggedTarget (doc : list Element) (t : Callback * nat) :
  okTimeout doc t → flaggedTarget doc t.1.
Proof.
  destruct t as [cb ms]. unfold okTimeout, flaggedTarget. simpl.
  destruct cb; simpl; try done; by intros [? _].
Qed.

Lemma tidy_step (doc : list Element) (ev : Event) (p p' : Page) :
  tidy doc p → step ev p = Some p' → tidy doc p'.
Proof.
  intros Hp Hstep. pose proof Hp as (Hattrs & Hfr & Hto & Hobs & Hun).
  destruct ev as [| |k|entries|]; simpl in Hstep.
  - destruct (domContentLoaded p); [done|]. injection Hstep as <-. simpl.
    destruct (onDOMContentLoaded p); [|done].
    by apply (tidy_requestAnimationFrame doc InitFrame (setDomContentLoaded true p)).
  - injection Hstep as <-.
    assert (Hstart : tidy doc (setAnimationFrames [] p)) by by split_and!.
    revert Hstart. generalize (setAnimationFrames [] p).
    induction Hfr as [|cb cbs Hcb _ IH]; intros q Hq; [done|]. simpl.
    apply IH. apply tidy_runCallback; [|done]. by apply okFrame_flaggedTarget.
  - destruct (timeouts p !! k) as [[cb ms]|] eqn:Hk; [|done].
    injection Hstep as <-. apply tidy_runCallback.
    + rewrite Forall_forall in Hto.
      apply (okTimeout_flaggedTarget doc (cb, ms)), Hto.
      by eapply list_elem_of_lookup_2.
    + split_and!; try done. simpl. rewrite Forall_forall in Hto |- *.
      intros t Ht. by apply Hto, (list_elem_of_delete_inv t k).
  - apply step_intersection_observed in Hstep as (_ & -> & Hin).
    apply tidy_onIntersection; [|done].
    intros e He. by apply revealIn_flaggedIn, Hobs, Hin.
  - injection Hstep as <-. destruct (onMotionChange p); [|done].
    apply tidy_showImmediately; [|done].
    intros el. by apply querySelectorAll_flaggedIn.
Qed.

Lemma tidy_run (doc : list Element) (evs : list Event) (p p' : Page) :
  tidy doc p → run evs p = Some p' → tidy doc p'.
Proof.
  revert p. induction evs as [|ev evs IH]; intros p Hp Hrun; simpl in Hrun.
  - by injection Hrun as <-.
  - destruct (step ev p) as [q|] eqn:Hstep; [|done].
    eapply IH; [|done]. by eapply tidy_step.
Qed.

Lemma tidy_main (w : Window) (doc : list Element) (p : Page) :
  main w doc = Normal p → tidy doc p.
Proof.
  intros (mq & _ & ->)%main_page.
  split_and!; try done; intros el Hel; by apply elem_of_empty in Hel.
Qed.

End Tidy.

Lemma omap_sublist {A B} (f : A → option B) (l1 l2 : list A) :
  l1 `sublist_of` l2 → omap f l1 `sublist_of` omap f l2.
Proof.
  induction 1 as [|x l1 l2 _ IH|x l1 l2 _ IH]; simpl.
  - constructor.
  - destruct (f x); [by constructor|done].
  - destruct (f x); [by constructor|done].
Qed.

Section Sessions.
Context `{JSHost}.

Lemma runIntro_attrs (p : Page) : attrsOf (runIntro p) = attrsOf p.
Proof.
  destruct (prefersReduced p) eqn:Hpr.
  - rewrite runIntro_reduced by done. apply showImmediately_rest.
  - rewrite runIntro_animated by done.
    apply (forEachFrom_preserves attrsOf), introBody_attrs.
Qed.

Lemma setupReveals_attrs (p : Page) : attrsOf (setupReveals p) = attrsOf p.
Proof.
  destruct (prefersReduced p) eqn:Hpr.
  - rewrite setupReveals_reduced by done. apply showImmediately_rest.
  - unfold attrsOf. rewrite setupReveals_document by done. apply restyle_attrs.
Qed.

Lemma runCallback_attrs (cb : Callback) (p : Page) :
  attrsOf (runCallback cb p) = attrsOf p.
Proof.
  destruct cb; simpl.
  - by rewrite setupReveals_attrs, runIntro_attrs.
  - done.
  - unfold animateInFrame. by rewrite !updateStyle_attrs.
  - unfold clearTimeoutBody. by rewrite !updateStyle_attrs.
Qed.

Lemma run_static (evs : list Event) (p p' : Page) :
  run evs p = Some p' →
  attrsOf p' = attrsOf p
  ∧ prefersReduced p' = prefersReduced p
  ∧ onDOMContentLoaded p' = onDOMContentLoaded p
  ∧ onMotionChange p' = onMotionChange p.
Proof.
  assert (Hstep : ∀ ev q q', step ev q = Some q' →
            attrsOf q' = attrsOf q
            ∧ prefersReduced q' = prefersReduced q
            ∧ onDOMContentLoaded q' = onDOMContentLoaded q
            ∧ onMotionChange q' = onMotionChange q).
  { assert (Hfl : ∀ q q', flags q' = flags q →
              prefersReduced q' = prefersReduced q
              ∧ onDOMContentLoaded q' = onDOMContentLoaded q
              ∧ onMotionChange q' = onMotionChange q).
    { unfold flags. intros q q' [= -> -> -> _]. done. }
    intros ev q q' Hs. destruct ev as [| |k|entries|]; simpl in Hs.
    - destruct (domContentLoaded q); [done|]. injection Hs as <-.
      by destruct (onDOMContentLoaded q) eqn:Hl; simpl; rewrite ?Hl.
    - injection Hs as <-.
      change (attrsOf q) with (attrsOf (setAnimationFrames [] q)).
      change (prefersReduced q) with (prefersReduced (setAnimationFrames [] q)).
      change (onDOMContentLoaded q)
        with (onDOMContentLoaded (setAnimationFrames [] q)).
      change (onMotionChange q) with (onMotionChange (setAnimationFrames [] q)).
      generalize (setAnimationFrames [] q).
      induction (animationFrames q) as [|cb cbs IH]; intros r; [done|]. simpl.
      destruct (IH (runCallback cb r)) as (-> & -> & -> & ->).
      split; [apply runCallback_attrs|]. apply Hfl, runCallback_flags.
    - destruct (timeouts q !! k) as [[cb ms]|]; [|done]. injection Hs as <-.
      split; [apply (runCallback_attrs cb (setTimeouts _ q))|].
      apply (Hfl (setTimeouts (delete k (timeouts q)) q)), runCallback_flags.
    - apply step_intersection_observed in Hs as (_ & -> & _).
      split; [|apply Hfl, onIntersection_flags].
      unfold attrsOf, onIntersection, forEach.
      by rewrite forEachFrom_onEntry_document.
    - injection Hs as <-. destruct (onMotionChange q) eqn:Hl; [|done].
      destruct (Hfl q (onMotionChangeBody q)) as (Hp & Hd & Hm);
        [apply showImmediately_flags|].
      rewrite Hl in Hm. split; [apply showImmediately_rest|done]. }
  revert p. induction evs as [|ev evs IH]; intros q Hq; simpl in Hq.
  - by injection Hq as <-.
  - destruct (step ev q) as [r|] eqn:Hs; [|done].
    destruct (IH r Hq) as (-> & -> & -> & ->). by apply (Hstep ev).
Qed.

(** X9: no host event makes the script change an attribute other than
    [style] (the content attribute that mirrors the inline style the
    script writes, kept in the style record here), add or remove an
    element, revise the reduced-motion decision taken when the script was
    evaluated, or add or drop a listener. *)
Theorem run_keeps_attributes (evs : list Event) (p p' : Page) :
  run evs p = Some p' →
  (∀ el name, name ≠ "style" →
     nodeAttribute p' el name = nodeAttribute p el name)
  ∧ length (document p') = length (document p)
  ∧ prefersReduced p' = prefersReduced p
  ∧ onDOMContentLoaded p' = onDOMContentLoaded p
  ∧ onMotionChange p' = onMotionChange p.
Proof.
  intros Hp. destruct (run_static evs p p' Hp) as (Ha & Hrest).
  split; [|split; [|done]].
  - intros el name _. by apply nodeAttribute_attrsOf.
  - unfold attrsOf in Ha.
    by rewrite <- (length_fmap attributes (document p')), Ha, length_fmap.
Qed.

(** X10: in a session started by the script, an element that carries
    neither presence flag is never written to: it stays exactly as
    parsed, whatever events occur. *)
Theorem unflagged_never_styled (w : Window) (doc : list Element)
  (p0 p : Page) (evs : list Event) (el : node) (e0 : Element) :
  main w doc = Normal p0 → run evs p0 = Some p →
  doc !! el = Some e0 → ¬ flagged e0 →
  document p !! el = Some e0.
Proof.
  intros Hmain Hrun He0 Hnf.
  destruct (tidy_run doc evs p0 p (tidy_main w doc p0 Hmain) Hrun)
    as (_ & _ & _ & _ & Hun).
  by apply Hun.
Qed.

(** X11: in a session started by the script, every pending timer is a
    20ms intro timeout or a 1100ms cleanup of a flagged element, every
    pending frame is the initialisation frame or an animate-in of a
    flagged element with duration 900 or 800 and the default easing, and
    only reveal elements are observed. *)
Theorem pending_work_shape (w : Window) (doc : list Element)
  (p0 p : Page) (evs : list Event) :
  main w doc = Normal p0 → run evs p0 = Some p →
  (∀ cb ms, (cb, ms) ∈ timeouts p →
     ∃ el, flaggedIn doc el
           ∧ ((∃ delay, cb = IntroTimeout el delay ∧ ms = 20%nat)
              ∨ (cb = ClearTimeout el ∧ ms = 1100%nat)))
  ∧ (∀ cb, cb ∈ animationFrames p →
       cb = InitFrame
       ∨ ∃ el delay duration,
           cb = AnimateInFrame el delay duration defaultEasing
           ∧ flaggedIn doc el
           ∧ (duration = num_of_Z 900 ∨ duration = num_of_Z 800))
  ∧ (∀ el, el ∈ observed p → revealIn doc el).
Proof.
  intros Hmain Hrun.
  destruct (tidy_run doc evs p0 p (tidy_main w doc p0 Hmain) Hrun)
    as (_ & Hfr & Hto & Hobs & _).
  pose proof (proj1 (Forall_forall _ _) Hfr) as Hfr'.
  pose proof (proj1 (Forall_forall _ _) Hto) as Hto'.
  clear Hfr Hto. rename Hfr' into Hfr, Hto' into Hto.
  split_and!; [| |done].
  - intros cb ms Hin. specialize (Hto _ Hin). unfold okTimeout in Hto.
    simpl in Hto. destruct cb as [|el delay|?|el]; try done.
    + destruct Hto as [Hel ->]. exists el. split; [done|]. left. by exists delay.
    + destruct Hto as [Hel ->]. exists el. split; [done|]. by right.
  - intros cb Hin. specialize (Hfr _ Hin).
    destruct cb as [|?|el delay duration easing|?]; try done; [by left|].
    destruct Hfr as (Hel & Hd & ->). right. by exists el, delay, duration.
Qed.

End Sessions.

(** ** Intro timeouts over a session *)

Lemma omap_fmap_none {A B C} (f : B → option C) (g : A → B) (l : list A) :
  (∀ x, f (g x) = None) → omap f (g <$> l) = [].
Proof.
  intros Hnone. induction l as [|x l IH]; [done|].
  simpl. by rewrite Hnone.
Qed.

Section AtMostOnce.
Context `{JSHost}.

Lemma scheduledIntro_runCallback (cb : Callback) (p : Page) :
  cb ≠ InitFrame → scheduledIntro (runCallback cb p) = scheduledIntro p.
Proof.
  intros Hcb. destruct cb; [done| |done..].
  unfold scheduledIntro. simpl. rewrite omap_app. simpl. apply app_nil_r.
Qed.

Lemma scheduledIntro_foldl (cbs : list Callback) (p : Page) :
  InitFrame ∉ cbs →
  scheduledIntro (foldl (λ p cb, runCallback cb p) p cbs) = scheduledIntro p.
Proof.
  revert p. induction cbs as [|cb cbs IH]; intros p Hcbs; [done|].
  apply not_elem_of_cons in Hcbs as [Hcb Hcbs]. simpl.
  by rewrite IH, scheduledIntro_runCallback.
Qed.

Lemma scheduledIntro_onIntersection (entries : list IntersectionObserverEntry)
  (p : Page) :
  scheduledIntro (onIntersection entries p) = scheduledIntro p.
Proof.
  unfold scheduledIntro, onIntersection, forEach.
  destruct (forEachFrom_onEntry_queues entries 0 p) as [_ ->].
  rewrite omap_app, omap_fmap_none by done. apply app_nil_r.
Qed.

Lemma settled_step_scheduled (ev : Event) (p p' : Page) :
  settled p → step ev p = Some p' →
  scheduledIntro p' `sublist_of` scheduledIntro p.
Proof.
  intros (Hdcl & Hfr & Hto) Hstep.
  destruct ev as [| |k|entries|]; simpl in Hstep.
  - by rewrite Hdcl in Hstep.
  - injection Hstep as <-. by rewrite scheduledIntro_foldl.
  - destruct (timeouts p !! k) as [[cb ms]|] eqn:Hk; [|done].
    injection Hstep as <-. rewrite scheduledIntro_runCallback.
    + apply omap_sublist, sublist_delete.
    + intros ->. apply Hto. apply list_elem_of_fmap.
      exists (InitFrame, ms). split; [done|]. by eapply list_elem_of_lookup_2.
  - apply step_intersection_observed in Hstep as (_ & -> & _).
    by rewrite scheduledIntro_onIntersection.
  - injection Hstep as <-. destruct (onMotionChange p); [|done].
    unfold scheduledIntro, onMotionChangeBody.
    destruct (showImmediately_rest
                (querySelectorAll ["data-intro"; "data-reveal"] p) p)
      as (-> & _). done.
Qed.

Lemma settled_run_scheduled (evs : list Event) (p p' : Page) :
  settled p → run evs p = Some p' →
  scheduledIntro p' `sublist_of` scheduledIntro p.
Proof.
  revert p. induction evs as [|ev evs IH]; intros p Hp Hrun; simpl in Hrun.
  - by injection Hrun as <-.
  - destruct (step ev p) as [q|] eqn:Hstep; [|done].
    transitivity (scheduledIntro q).
    + apply IH; [|done]. by eapply settled_step.
    + by eapply settled_step_scheduled.
Qed.

Lemma init_scheduled_NoDup (p : Page) :
  timeouts p = [] → NoDup (scheduledIntro (runCallback InitFrame p)).
Proof.
  intros Hto. simpl. unfold scheduledIntro.
  destruct (setupReveals_queues (runIntro p)) as [_ ->].
  destruct (prefersReduced p) eqn:Hpr.
  - destruct (reduced_rest p Hpr) as (-> & _). rewrite Hto. constructor.
  - rewrite runIntro_timeouts, Hto by done. simpl.
    rewrite omap_intro_targets. apply introOrder_NoDup.
Qed.

Lemma unsettled_step_scheduled (ev : Event) (p p' : Page) :
  timeouts p = [] → observer p = None →
  animationFrames p = [] ∨ animationFrames p = [InitFrame] →
  step ev p = Some p' → NoDup (scheduledIntro p').
Proof.
  intros Hto Ho Hfr Hstep.
  destruct ev as [| |k|entries|]; simpl in Hstep.
  - destruct (domContentLoaded p); [done|]. injection Hstep as <-.
    unfold scheduledIntro.
    destruct (onDOMContentLoaded p); simpl; rewrite Hto; constructor.
  - injection Hstep as <-. destruct Hfr as [->| ->]; simpl.
    + unfold scheduledIntro. simpl. rewrite Hto. constructor.
    + by apply (init_scheduled_NoDup (setAnimationFrames [] p)).
  - by rewrite Hto in Hstep.
  - by rewrite Ho in Hstep.
  - injection Hstep as <-. unfold scheduledIntro.
    destruct (onMotionChange p); [|rewrite Hto; constructor].
    unfold onMotionChangeBody.
    destruct (showImmediately_rest
                (querySelectorAll ["data-intro"; "data-reveal"] p) p)
      as (-> & _). rewrite Hto. constructor.
Qed.

Lemma scheduled_NoDup_run (evs : list Event) (p p' : Page) :
  phased p → NoDup (scheduledIntro p) → run evs p = Some p' →
  NoDup (scheduledIntro p').
Proof.
  revert p. induction evs as [|ev evs IH]; intros p Hph Hnd Hrun;
    simpl in Hrun.
  - by injection Hrun as <-.
  - destruct (step ev p) as [q|] eqn:Hstep; [|done].
    apply (IH q); [by eapply phased_step| |done].
    destruct Hph as [(_ & Hfr & Hto & Ho)|[(_ & Hfr & Hto & Ho)|Hs]].
    + eapply unsettled_step_scheduled; eauto.
    + eapply unsettled_step_scheduled; eauto.
    + eapply sublist_NoDup; [done|]. by eapply settled_step_scheduled.
Qed.

(** X12: in a session started by the script no element ever has two
    intro timeouts pending, and once the initialisation frame has run no
    intro timeout is added any more: the pending ones can only expire.
    Each element is intro-animated at most once. *)
Theorem intro_at_most_once (w : Window) (doc : list Element)
  (p0 p : Page) (evs : list Event) :
  main w doc = Normal p0 → run evs p0 = Some p →
  NoDup (scheduledIntro p)
  ∧ (settled p → ∀ evs' p', run evs' p = Some p' →
       scheduledIntro p' `sublist_of` scheduledIntro p).
Proof.
  intros Hmain Hrun. split.
  - apply (scheduled_NoDup_run evs p0 p); [by eapply main_phased| |done].
    apply main_page in Hmain as (mq & _ & ->). constructor.
  - intros Hs evs' p'. by apply settled_run_scheduled.
Qed.

(** X13: the change handler cancels nothing.  A cleanup timer that is
    pending when the preference changes stays pending, and when it
    expires it blanks the four inline properties of its element, so the
    end state the handler had forced on a flagged element is removed
    again. *)
Theorem stray_cleanup_after_motion_change (p : Page) (k : nat) (el : node)
  (ms : nat) (e : Element) :
  onMotionChange p = true →
  timeouts p !! k = Some (ClearTimeout el, ms) →
  document p !! el = Some e →
  ∃ q1 q2,
    step EvMotionChange p = Some q1
    ∧ timeouts q1 = timeouts p
    ∧ (flagged e → nodeStyle q1 el = Some (mkStyle "1" "" "none" ""))
    ∧ step (EvTimeout k) q1 = Some q2
    ∧ nodeStyle q2 el = Some (mkStyle "" "" "" "").
Proof.
  intros Hl Hk He.
  destruct (showImmediately_rest
              (querySelectorAll ["data-intro"; "data-reveal"] p) p)
    as (Hto & _).
  pose proof (showImmediately_selected ["data-intro"; "data-reveal"] p el e He)
    as Hdoc.
  exists (onMotionChangeBody p),
         (clearTimeoutBody el
            (setTimeouts (delete k (timeouts (onMotionChangeBody p)))
                         (onMotionChangeBody p))).
  split_and!.
  - simpl. by rewrite Hl.
  - done.
  - intros Hfl. unfold nodeStyle, onMotionChangeBody.
    by rewrite Hdoc, flagged_matchesSelector.
  - simpl. unfold onMotionChangeBody at 1. by rewrite Hto, Hk.
  - unfold nodeStyle, clearTimeoutBody, updateStyle. simpl.
    rewrite !list_alter_alter_eq, list_lookup_alter_eq.
    unfold onMotionChangeBody. by rewrite Hdoc.
Qed.

(** X14: on a document without flagged elements the initialisation frame
    and the change handler leave the page exactly as it is, under either
    preference: no style, no timer, no observer. *)
Theorem no_flagged_elements_noop (p : Page) :
  (∀ el e, document p !! el = Some e → ¬ flagged e) →
  runCallback InitFrame p = p ∧ onMotionChangeBody p = p.
Proof.
  intros Hnone.
  assert (Hnil : ∀ names, names ⊆ ["data-intro"; "data-reveal"] →
                   querySelectorAll names p = []).
  { intros names Hsub. apply elem_of_nil_inv.
    intros el (e & He & Hm)%elem_of_querySelectorAll.
    apply (Hnone el e He). by apply (matchesSelector_flagged names). }
  split.
  - simpl. unfold runIntro. rewrite Hnil by set_solver. simpl.
    unfold setupReveals. by rewrite Hnil by set_solver.
  - unfold onMotionChangeBody. by rewrite Hnil.
Qed.

End AtMostOnce.

(** ** Before the document is ready *)

Section Idle.
Context `{JSHost}.

(** X15: the script does nothing before the document is ready.  Until
    DOMContentLoaded is dispatched (and unless the preference changes)
    the page stays exactly as script evaluation left it, and
    DOMContentLoaded itself only requests the initialisation frame: the
    first style is written in the next animation frame. *)
Theorem idle_until_DOMContentLoaded (w : Window) (doc : list Element)
  (p0 : Page) :
  main w doc = Normal p0 →
  (∀ evs p, run evs p0 = Some p →
     EvDOMContentLoaded ∉ evs → EvMotionChange ∉ evs → p = p0)
  ∧ step EvDOMContentLoaded p0
    = Some (requestAnimationFrame InitFrame (setDomContentLoaded true p0))
  ∧ document (requestAnimationFrame InitFrame (setDomContentLoaded true p0)) = doc
  ∧ animationFrames (requestAnimationFrame InitFrame (setDomContentLoaded true p0))
    = [InitFrame].
Proof.
  intros (mq & _ & ->)%main_page. split_and!; try done.
  induction evs as [|ev evs IH]; intros p Hrun Hd Hm; simpl in Hrun.
  - by injection Hrun as <-.
  - apply not_elem_of_cons in Hd as [Hd1 Hd].
    apply not_elem_of_cons in Hm as [Hm1 Hm].
    destruct ev as [| |k|entries|]; try done; simpl in Hrun.
    by apply IH.
Qed.

End Idle.

(** * Worked instances of the further properties *)

Lemma clamp_seven_into_0_5 :
  clamp (num_of_Z 7) (num_of_Z 0) (num_of_Z 5) = num_of_Z 5.
Proof.
  apply (proj2 (proj2 (proj2 (proj2
           (clamp_within_bounds (num_of_Z 7) (num_of_Z 0) (num_of_Z 5)
              eq_refl eq_refl))))).
  reflexivity.
Defined.

Lemma clamp_inverted_bounds :
  clamp (num_of_Z 3) (num_of_Z 5) (num_of_Z 0) = num_of_Z 0.
Proof.
  apply (proj2 (proj2 (proj2
           (clamp_unvalidated (num_of_Z 3) (num_of_Z 5) (num_of_Z 0)))));
    reflexivity.
Defined.

Lemma runIntro_mixed_hidden :
  nodeStyle (@runIntro integerHost (pageOf false mixedDocument)) 0
  = Some (mkStyle "0" "opacity, transform" "translateX(10px)" "").
Proof.
  refine (proj1 (@runIntro_hidden_state integerHost
                   (pageOf false mixedDocument) eq_refl) 0%nat
            (element [("data-intro", ""); ("data-intro-from", "left")])
            eq_refl _).
  vm_compute. eexists. reflexivity.
Defined.

Lemma runIntro_stagger_each_once :
  ∃ order,
    order ≡ₚ querySelectorAll ["data-intro"] (pageOf false staggerDocument)
    ∧ NoDup order
    ∧ scheduledIntro (@runIntro integerHost (pageOf false staggerDocument))
      = order.
Proof.
  destruct (@runIntro_schedules_each_once integerHost
              (pageOf false staggerDocument) eq_refl)
    as (order & Hperm & Hnd & _ & Hs).
  exists order. split; [exact Hperm|]. split; [exact Hnd | exact Hs].
Defined.

Lemma runIntro_plain_document_order :
  @introOrder integerHost (pageOf false plainIntroDocument)
  = querySelectorAll ["data-intro"] (pageOf false plainIntroDocument).
Proof.
  refine (proj1 (@runIntro_document_order integerHost
                   (pageOf false plainIntroDocument) eq_refl _)).
  intros el Hel.
  replace (querySelectorAll ["data-intro"] (pageOf false plainIntroDocument))
    with [0; 1]%nat in Hel by (vm_compute; reflexivity).
  apply elem_of_cons in Hel as [->|Hel]; [vm_compute; reflexivity|].
  apply elem_of_cons in Hel as [->|Hel]; [vm_compute; reflexivity|].
  by apply elem_of_nil in Hel.
Defined.

Lemma setupReveals_bare_none :
  @setupReveals integerHost (pageOf false bareDocument)
  = pageOf false bareDocument.
Proof.
  refine (proj1 (@setupReveals_registration integerHost
                   (pageOf false bareDocument) eq_refl) _).
  vm_compute. reflexivity.
Defined.

Lemma onIntersection_hero_schedules :
  animationFrames (@onIntersection integerHost [mkEntry 3 true] heroReady)
  = (animationFrames heroReady
     ++ [AnimateInFrame 3 (@revealDelay integerHost heroReady 3)
                        (num_of_Z 800) defaultEasing])%list.
Proof.
  exact (proj1 (proj2 (@onIntersection_schedules integerHost
                         [mkEntry 3 true] heroReady))).
Defined.

Lemma run_hero_keeps_attributes :
  nodeAttribute heroReady 3 "data-reveal-delay"
  = nodeAttribute (pageOf false heroDocument) 3 "data-reveal-delay".
Proof.
  refine (proj1 (@run_keeps_attributes integerHost
                   [EvDOMContentLoaded; EvAnimationFrame]
                   (pageOf false heroDocument) heroReady _)
            3%nat "data-reveal-delay" _).
  - vm_compute. reflexivity.
  - discriminate.
Defined.

Lemma mixed_footer_untouched :
  document mixedRevealed !! 1%nat = Some (element [("id", "footer")]).
Proof.
  refine (@unflagged_never_styled integerHost (motionWindow false)
            mixedDocument (pageOf false mixedDocument) mixedRevealed
            [EvDOMContentLoaded; EvAnimationFrame;
             EvIntersection [mkEntry 2 true]]
            1%nat _ eq_refl _ eq_refl _).
  - vm_compute. reflexivity.
  - intros [[x Hx]|[x Hx]]; vm_compute in Hx; discriminate.
Defined.

Lemma hero_pending_work : revealIn heroDocument 3.
Proof.
  refine (proj2 (proj2 (@pending_work_shape integerHost (motionWindow false)
                          heroDocument (pageOf false heroDocument) heroReady
                          [EvDOMContentLoaded; EvAnimationFrame] eq_refl _))
            3%nat _).
  - vm_compute. reflexivity.
  - apply (bool_decide_unpack _). vm_compute. exact I.
Defined.

Lemma hero_intro_at_most_once : NoDup (scheduledIntro heroReady).
Proof.
  refine (proj1 (@intro_at_most_once integerHost (motionWindow false)
                   heroDocument (pageOf false heroDocument) heroReady
                   [EvDOMContentLoaded; EvAnimationFrame] eq_refl _)).
  vm_compute. reflexivity.
Defined.

Lemma plain_stray_cleanup :
  ∃ q1 q2,
    @step integerHost EvMotionChange plainAnimating = Some q1
    ∧ nodeStyle q1 0 = Some (mkStyle "1" "" "none" "")
    ∧ @step integerHost (EvTimeout 1) q1 = Some q2
    ∧ nodeStyle q2 0 = Some (mkStyle "" "" "" "").
Proof.
  destruct (@stray_cleanup_after_motion_change integerHost plainAnimating
              1%nat 0%nat 1100%nat
              (mkElement (list_to_map [("data-intro", "")])
                 (mkStyle "0" "opacity, transform" "translateY(10px)" "")))
    as (q1 & q2 & H1 & _ & Hshown & H2 & Hblank).
  - reflexivity.
  - vm_compute. reflexivity.
  - vm_compute. reflexivity.
  - exists q1, q2. split; [exact H1|]. split; [|split; [exact H2 | exact Hblank]].
    apply Hshown. left. vm_compute. eexists. reflexivity.
Defined.

Lemma bare_document_noop :
  @runCallback integerHost InitFrame (pageOf true bareDocument)
  = pageOf true bareDocument.
Proof.
  refine (proj1 (@no_flagged_elements_noop integerHost
                   (pageOf true bareDocument) _)).
  intros el e He [[x Hx]|[x Hx]];
    destruct el as [|[|el]]; simpl in He; try discriminate;
    injection He as <-; vm_compute in Hx; discriminate.
Defined.

Lemma hero_idle :
  @step integerHost EvDOMContentLoaded (pageOf false heroDocument)
  = Some (requestAnimationFrame InitFrame
            (setDomContentLoaded true (pageOf false heroDocument))).
Proof.
  exact (proj1 (proj2 (@idle_until_DOMContentLoaded integerHost
                         (motionWindow false) heroDocument
                         (pageOf false heroDocument) eq_refl))).
Defined.
